(** * A shallow embedding of the TikTok relay bot (main.go)

    The Go program keeps a small token cache with time-based expiry
    ([linkCache]), routes chat messages ([handlerMessage],
    [handleStartPayload]), delivers slideshows in batches
    ([sendPhotoGroups]) and composes a video from downloaded stills and an
    audio track through an external encoder ([makeVideo]).

    The embedding follows the first revision of main.go; the cache, the
    token generator, [handleStartPayload], [sendPhotoGroups] and
    [makeVideo] read the same in the second.

    Conventions of the embedding:
    - a Go [string] is a Rocq [string] (a sequence of bytes);
    - a [time.Time] is the clock reading in nanoseconds, a [Z];
    - everything the program obtains from its environment (the clock, the
      random source, HTTP answers, the outcome of starting and waiting for
      the encoder, the scheduler's choices) is an explicit argument;
    - the state of the process-wide cache and the calls made to the bot API
      are threaded through a state monad that can get stuck (a [Lock] on a
      mutex that is held never returns). *)

From Stdlib Require Import ZArith NArith Ascii String DecimalString DecimalPos DecimalZ.
From Stdlib Require Import Floats.PrimFloat Numbers.Cyclic.Int63.Uint63.
From stdpp Require Import gmap strings list.
From Equations Require Import Equations.

Local Open Scope Z_scope.

(** ** Bytes and strings *)

Abbreviation bytes := (list Byte.byte).

Definition code (c : ascii) : N := N_of_ascii c.

(** [strings.HasPrefix] and [strings.TrimPrefix]. *)
Fixpoint HasPrefix (s pre : string) {struct pre} : bool :=
  match pre, s with
  | EmptyString, _ => true
  | String p pre', String c s' => if Ascii.eqb c p then HasPrefix s' pre' else false
  | String _ _, EmptyString => false
  end.

Fixpoint dropBytes (n : nat) (s : string) : string :=
  match n, s with
  | O, _ => s
  | S n', String _ s' => dropBytes n' s'
  | S _, EmptyString => EmptyString
  end.

Definition TrimPrefix (s pre : string) : string :=
  if HasPrefix s pre then dropBytes (String.length pre) s else s.

(** *** White space

    [strings.Fields] and [strings.TrimSpace] cut at the runes accepted by
    [unicode.IsSpace]: the six ASCII ones, U+0085, U+00A0, U+1680,
    U+2000..U+200A, U+2028, U+2029, U+202F, U+205F and U+3000.  On the byte
    string these are exactly the places where one of their UTF-8 encodings
    starts: such an encoding begins with an ASCII byte or a lead byte, so it
    can never start inside another rune, and every one of them is accepted
    by the decoder.  [spaceWidth s] is the length in bytes of the
    white-space rune at the head of [s], and 0 when there is none. *)

Definition asciiSpace (c : ascii) : bool :=
  let n := code c in
  ((n =? 9) || (n =? 10) || (n =? 11) || (n =? 12) || (n =? 13) || (n =? 32))%N.

Definition spaceWidth (s : string) : nat :=
  match s with
  | EmptyString => 0
  | String c r =>
    if asciiSpace c then 1
    else
      match r with
      | EmptyString => 0
      | String d r' =>
        if ((code c =? 0xC2) && ((code d =? 0x85) || (code d =? 0xA0)))%N then 2
        else
          match r' with
          | EmptyString => 0
          | String e _ =>
            if ((code c =? 0xE1) && (code d =? 0x9A) && (code e =? 0x80))%N then 3
            else if ((code c =? 0xE2) && (code d =? 0x80) &&
                     (((0x80 <=? code e) && (code e <=? 0x8A)) ||
                      (code e =? 0xA8) || (code e =? 0xA9) || (code e =? 0xAF)))%N then 3
            else if ((code c =? 0xE2) && (code d =? 0x81) && (code e =? 0x9F))%N then 3
            else if ((code c =? 0xE3) && (code d =? 0x80) && (code e =? 0x80))%N then 3
            else 0
          end
      end
  end%nat.

Definition flush (cur : string) : list string :=
  match cur with
  | EmptyString => []
  | _ => [cur]
  end.

(** [fieldsFrom s skip cur]: the scan of [strings.Fields].  [cur] is the
    field being collected, [skip] counts the bytes of a white-space rune
    that are still to be passed over. *)
Fixpoint fieldsFrom (s : string) (skip : nat) (cur : string) : list string :=
  match s with
  | EmptyString => flush cur
  | String c r =>
    match skip with
    | S k => fieldsFrom r k cur
    | O =>
      match spaceWidth s with
      | O => fieldsFrom r O (cur +:+ String c EmptyString)
      | S k => flush cur ++ fieldsFrom r k EmptyString
      end
    end
  end.

Definition Fields (s : string) : list string := fieldsFrom s O EmptyString.

(** [strings.TrimSpace]: leading white-space runes are removed from the
    left, trailing ones from the right. *)
Fixpoint trimLeftFrom (s : string) (skip : nat) : string :=
  match s with
  | EmptyString => EmptyString
  | String _ r =>
    match skip with
    | S k => trimLeftFrom r k
    | O =>
      match spaceWidth s with
      | O => s
      | S k => trimLeftFrom r k
      end
    end
  end.

Definition TrimLeftSpace (s : string) : string := trimLeftFrom s O.

Definition takeBytes (n : nat) (s : string) : string :=
  String.substring 0 n s.

(** Width of the white-space rune that ends [s], 0 when there is none. *)
Definition trailingSpaceWidth (s : string) : nat :=
  let n := String.length s in
  if ((1 <=? n) && (spaceWidth (dropBytes (n - 1) s) =? 1))%nat then 1%nat
  else if ((2 <=? n) && (spaceWidth (dropBytes (n - 2) s) =? 2))%nat then 2%nat
  else if ((3 <=? n) && (spaceWidth (dropBytes (n - 3) s) =? 3))%nat then 3%nat
  else 0%nat.

Fixpoint trimRightFuel (fuel : nat) (s : string) : string :=
  match fuel with
  | O => s
  | S fuel' =>
    match trailingSpaceWidth s with
    | O => s
    | w => trimRightFuel fuel' (takeBytes (String.length s - w) s)
    end
  end.

Definition TrimRightSpace (s : string) : string :=
  trimRightFuel (String.length s) s.

Definition TrimSpace (s : string) : string := TrimRightSpace (TrimLeftSpace s).

(** *** Token text: [base64.RawURLEncoding] and [fmt.Sprintf("%d", _)] *)

Definition encodeURL : string :=
  "ABCDEFGHIJKLMNOPQRSTUVWXYZabcdefghijklmnopqrstuvwxyz0123456789-_".

Definition encodeChar (i : N) : ascii :=
  match String.get (N.to_nat i) encodeURL with
  | Some c => c
  | None => Ascii.zero
  end.

Definition sextet (val : N) (shift : N) : ascii :=
  encodeChar (N.land (N.shiftr val shift) 0x3F).

(** [EncodeToString] without padding: three bytes give four characters, a
    remainder of two gives three and a remainder of one gives two. *)
Fixpoint EncodeToString (src : bytes) : string :=
  match src with
  | b0 :: b1 :: b2 :: rest =>
    let val := N.lor (N.lor (N.shiftl (Byte.to_N b0) 16) (N.shiftl (Byte.to_N b1) 8))
                     (Byte.to_N b2) in
    String (sextet val 18) (String (sextet val 12)
      (String (sextet val 6) (String (sextet val 0) (EncodeToString rest))))
  | [b0; b1] =>
    let val := N.lor (N.shiftl (Byte.to_N b0) 16) (N.shiftl (Byte.to_N b1) 8) in
    String (sextet val 18) (String (sextet val 12) (String (sextet val 6) EmptyString))
  | [b0] =>
    let val := N.shiftl (Byte.to_N b0) 16 in
    String (sextet val 18) (String (sextet val 12) EmptyString)
  | [] => EmptyString
  end.

Definition formatInt (z : Z) : string := NilZero.string_of_int (Z.to_int z).

(** ** The environment of token generation *)

(** What [rand.Read] does with the buffer it is given: it fails, or it
    fills every position. *)
Inductive randSource :=
| RandFails
| RandFills (gen : nat -> Byte.byte).

Definition randRead (rnd : randSource) (size : nat) : option bytes :=
  match rnd with
  | RandFails => None
  | RandFills gen => Some (map gen (seq 0 size))
  end.

(** [randomToken]; [nanos] is [time.Now().UnixNano()], read only on the
    fallback path. *)
Definition randomToken (size : nat) (rnd : randSource) (nanos : Z) : string :=
  match randRead rnd size with
  | None => formatInt nanos
  | Some buf => EncodeToString buf
  end.

(** ** The cache *)

Definition Minute : Z := 60 * 1000000000.
Definition cacheTTL : Z := 10 * Minute.
Definition startTokenPref : string := "tt_".

Definition After (t u : Z) : bool := u <? t.
Definition Add (t d : Z) : Z := t + d.

Record cacheItem := CacheItem { url : string; expires : Z }.

Inductive parseMode := ParseModeNone | ParseModeMarkdown.

Record InputMediaPhoto := MediaPhoto {
  Media : string;
  Caption : string;
  ParseMode : parseMode
}.

(** The two results [handlerInline] can answer with. *)
Inductive inlineResult :=
| ResultArticle (messageText : string) (buttonURL : string)
| ResultVideo (videoURL thumbnailURL title caption : string).

Inductive pipeEnd := ImgWriter | AudWriter.

(** What an observer of the process can see, in order: the mutex and map
    operations of the cache, lines written to the process log (none of the
    functions modelled here writes one), calls of the bot API, and the life
    of the encoder process and of its two input pipes. *)
Inductive event :=
| EvLock
| EvUnlock
| EvMapRead (key : string)
| EvMapWrite (key : string)
| EvMapDelete (key : string)
| EvLog (line : string)
| EvSendMessage (chatID : Z) (text : string) (mode : parseMode)
| EvSendMediaGroup (chatID : Z) (media : list InputMediaPhoto)
| EvAnswerInlineQuery (queryID : string) (result : inlineResult)
| EvStart (frameRate : float)
| EvStartFailed
| EvWrite (p : pipeEnd) (b : bytes) (failed : bool)
| EvClose (p : pipeEnd)
| EvWait.

(** The process state: [inlineCache] (its mutex and its map) and the trace
    of events so far. *)
Record world := World {
  mu : bool;
  items : gmap string cacheItem;
  trace : list event
}.

Definition M (A : Type) : Type := world -> option (A * world).

#[global] Instance M_ret : MRet M := fun A (a : A) w => Some (a, w).

#[global] Instance M_bind : MBind M := fun A B (k : A -> M B) (m : M A) w =>
  match m w with
  | Some (a, w') => k a w'
  | None => None
  end.

Definition emit (e : event) : M unit :=
  fun w => Some (tt, World (mu w) (items w) (trace w ++ [e])).

(** [sync.Mutex]: [Lock] on a held mutex never returns, [Unlock] of a free
    one is a fatal error. *)
Definition Lock : M unit :=
  fun w => if mu w then None
           else Some (tt, World true (items w) (trace w ++ [EvLock])).

Definition Unlock : M unit :=
  fun w => if mu w then Some (tt, World false (items w) (trace w ++ [EvUnlock]))
           else None.

Definition mapLookup (k : string) : M (option cacheItem) :=
  fun w => Some (items w !! k, World (mu w) (items w) (trace w ++ [EvMapRead k])).

Definition mapStore (k : string) (v : cacheItem) : M unit :=
  fun w => Some (tt, World (mu w) (<[k := v]> (items w)) (trace w ++ [EvMapWrite k])).

Definition mapDelete (k : string) : M unit :=
  fun w => Some (tt, World (mu w) (delete k (items w)) (trace w ++ [EvMapDelete k])).

(** [defer d] around [body]: [d] runs when [body] returns. *)
Definition defer {A} (d : M unit) (body : M A) : M A :=
  r ← body; d;; mret r.

(** [linkCache.set]; [now] is the reading of [time.Now()] taken for the
    expiry. *)
Definition set (u : string) (rnd : randSource) (nanos now : Z) : M string :=
  let token := randomToken 12 rnd nanos in
  Lock;;
  mapStore token (CacheItem u (Add now cacheTTL));;
  Unlock;;
  mret token.

(** [linkCache.get]; [now] is the reading of [time.Now()] taken for the
    expiry check. *)
Definition get (token : string) (now : Z) : M (string * bool) :=
  Lock;;
  defer Unlock
    (r ← mapLookup token;
     match r with
     | None => mret (EmptyString, false)
     | Some item =>
       if After now (expires item)
       then mapDelete token;; mret (EmptyString, false)
       else mret (url item, true)
     end).

Definition newLinkCache : world := World false ∅ [].

(** ** Delivery *)

Record response := Response {
  Title : string;
  Cover : string;
  Play : string;
  Music : string;
  Images : list string;
  Duration : Z
}.

Definition groupSize : nat := 10.

(** The slice expression [l[i:j]]. *)
Definition slice {A} (l : list A) (i j : nat) : list A := take (j - i) (drop i l).

(** The inner loop of [sendPhotoGroups]: one item per URL of the chunk. *)
Definition mediaItem (caption : string) (idx : nat) (u : string) : InputMediaPhoto :=
  if (idx =? 0)%nat && negb (String.eqb caption EmptyString)
  then MediaPhoto u caption ParseModeMarkdown
  else MediaPhoto u EmptyString ParseModeNone.

Definition chunkEnd (n i : nat) : nat :=
  let e := (i + groupSize)%nat in
  if (n <? e)%nat then n else e.

(** The outer loop of [sendPhotoGroups], entered with counter [i]. *)
Equations? sendPhotoGroupsFrom (chatID : Z) (imageURLs : list string)
    (caption : string) (i : nat) : M unit
    by wf (length imageURLs - i)%nat lt :=
  sendPhotoGroupsFrom chatID imageURLs caption i with decide (i < length imageURLs)%nat => {
    | left _ :=
        let chunk := slice imageURLs i (chunkEnd (length imageURLs) i) in
        let media := imap (mediaItem caption) chunk in
        emit (EvSendMediaGroup chatID media);;
        sendPhotoGroupsFrom chatID imageURLs caption (i + groupSize)%nat;
    | right _ := mret tt }.
Proof. unfold groupSize. lia. Qed.

Definition sendPhotoGroups (chatID : Z) (imageURLs : list string) (caption : string) : M unit :=
  sendPhotoGroupsFrom chatID imageURLs caption 0.

Definition srcCaption (link : string) : string := "[src](" +:+ link +:+ ")".

Definition expiredText : string :=
  "Ссылка устарела. Сначала отправьте ссылку заново через inline режим.".

(** *** [tiktokRegex]

    The pattern is [https?://(?:vm|vt|www)\.tiktok\.com/[a-zA-Z0-9/]+].
    [matchHere s] is the match that starts at the head of [s], if any; no
    choice in the pattern can be taken two ways, so the first match is the
    only one, extended over the longest run of path characters. *)

Definition isPathChar (c : ascii) : bool :=
  let n := code c in
  (((97 <=? n) && (n <=? 122)) || ((65 <=? n) && (n <=? 90)) ||
   ((48 <=? n) && (n <=? 57)) || (n =? 47))%N.

Fixpoint pathRun (s : string) : string :=
  match s with
  | EmptyString => EmptyString
  | String c r => if isPathChar c then String c (pathRun r) else EmptyString
  end.

Definition stripPrefix (pre s : string) : option string :=
  if HasPrefix s pre then Some (dropBytes (String.length pre) s) else None.

Definition matchHost (s : string) : option (string * string) :=
  if HasPrefix s "vm" then Some ("vm", dropBytes 2 s)
  else if HasPrefix s "vt" then Some ("vt", dropBytes 2 s)
  else if HasPrefix s "www" then Some ("www", dropBytes 3 s)
  else None.

Definition matchHere (s : string) : option string :=
  r ← stripPrefix "http" s;
  let scheme := if HasPrefix r "s" then "https" else "http" in
  r ← stripPrefix "://" (if HasPrefix r "s" then dropBytes 1 r else r);
  hr ← matchHost r;
  r ← stripPrefix ".tiktok.com/" (snd hr);
  match pathRun r with
  | EmptyString => None
  | path => Some (scheme +:+ "://" +:+ fst hr +:+ ".tiktok.com/" +:+ path)
  end.

(** [tiktokRegex.FindString]: the leftmost match, the empty string when
    there is none. *)
Fixpoint FindString (s : string) : string :=
  match matchHere s with
  | Some m => m
  | None =>
    match s with
    | EmptyString => EmptyString
    | String _ r => FindString r
    end
  end.

Section Handlers.

(** The resolver ([fetchTikTok]: an HTTP request and a JSON decode, [None]
    when either fails) and the environment variable [BOT_USERNAME]. *)
Variable fetchTikTok : string -> option response.
Variable BOT_USERNAME : string.

Definition sendTikTok (chatID : Z) (link : string) : M unit :=
  match fetchTikTok link with
  | None => mret tt
  | Some rs =>
    if (0 <? length (Images rs))%nat then
      sendPhotoGroups chatID (Images rs) (srcCaption link)
    else if negb (String.eqb (Play rs) EmptyString) then
      emit (EvSendMessage chatID (srcCaption (Play rs)) ParseModeMarkdown)
    else mret tt
  end.

Definition handleStartPayload (chatID : Z) (text : string) (now : Z) : M bool :=
  let parts := Fields text in
  if (length parts =? 0)%nat || negb (String.eqb (parts !!! 0%nat) "/start") then mret false
  else if (length parts <? 2)%nat then mret false
  else
    let payload := TrimSpace (parts !!! 1%nat) in
    if negb (HasPrefix payload startTokenPref) then mret false
    else
      let token := TrimPrefix payload startTokenPref in
      r ← get token now;
      if negb (snd r) then
        emit (EvSendMessage chatID expiredText ParseModeNone);;
        mret true
      else
        sendTikTok chatID (fst r);;
        mret true.

Definition handlerMessage (chatID : Z) (text : string) (now : Z) : M unit :=
  if String.eqb text EmptyString then mret tt
  else
    handled ← handleStartPayload chatID text now;
    if handled : bool then mret tt
    else
      let link := FindString text in
      if String.eqb link EmptyString then mret tt
      else sendTikTok chatID link.

Definition deepLink (token : string) : string :=
  "https://t.me/" +:+ BOT_USERNAME +:+ "?start=" +:+ startTokenPref +:+ token.

Definition handlerInline (queryID query : string) (rnd : randSource) (nanos now : Z) : M unit :=
  let link := FindString query in
  if String.eqb link EmptyString then mret tt
  else
    match fetchTikTok link with
    | None => mret tt
    | Some rs =>
      if String.eqb (Play rs) EmptyString && (length (Images rs) =? 0)%nat then mret tt
      else if (0 <? length (Images rs))%nat then
        if String.eqb BOT_USERNAME EmptyString then mret tt
        else
          token ← set link rnd nanos now;
          emit (EvAnswerInlineQuery queryID
                  (ResultArticle
                     ("Нажмите кнопку ниже, чтобы скачать слайдшоу. " +:+ srcCaption link)
                     (deepLink token)))
      else
        emit (EvAnswerInlineQuery queryID
                (ResultVideo (Play rs) (Cover rs) (Title rs) (srcCaption link)))
    end.

End Handlers.

(** A history of calls made on the cache by other handlers. *)
Inductive cacheOp :=
| OpGet (token : string) (now : Z)
| OpSet (u : string) (rnd : randSource) (nanos now : Z).

Definition runOp (o : cacheOp) : M unit :=
  match o with
  | OpGet token now => get token now;; mret tt
  | OpSet u rnd nanos now => set u rnd nanos now;; mret tt
  end.

Fixpoint runOps (ops : list cacheOp) : M unit :=
  match ops with
  | [] => mret tt
  | o :: ops' => runOp o;; runOps ops'
  end.

Definition mints (T : string) (o : cacheOp) : Prop :=
  match o with
  | OpGet _ _ => False
  | OpSet _ rnd nanos _ => randomToken 12 rnd nanos = T
  end.

(** ** The compositor *)

(** What [http.Get] followed by [io.ReadAll] can yield: the request fails,
    or a body arrives, whole or cut short by a read error.  [io.ReadAll]
    hands back the bytes read so far in a slice that is never nil. *)
Inductive httpResult :=
| GetFails
| GetBody (body : bytes) (readErr : bool).

(** A byte slice is [None] when nil. *)
Record fetched := Fetched {
  audBuf : option bytes;
  imgBufs : list (option bytes)
}.

Inductive fetchTask :=
| AudioTask (u : string)
| ImageTask (idx : nat) (u : string).

(** Outcome of the encoder process: [cmd.Start], [cmd.Wait], what it
    wrote to its standard output and standard error, and which writes to
    its input pipes return an error ([writeErr p i]: the write of buffer
    number [i] to pipe [p]). *)
Record encoderRun := EncoderRun {
  startErr : option string;
  waitErr : option string;
  stdout : bytes;
  stderr : string;
  writeErr : pipeEnd -> nat -> bool
}.

(** The conversion [float64(n)] of an [int] that is not negative, rounded
    to nearest like Go's; the quotient is the binary64 division. *)
Definition float64 (z : Z) : float := PrimFloat.of_uint63 (Uint63.of_Z z).

(** The loop of the goroutine that feeds the image pipe, at buffer number
    [i]: nil buffers are passed over, and the result of [Write] is not
    looked at. *)
Fixpoint imgWrites (enc : encoderRun) (i : nat) (bufs : list (option bytes)) : list event :=
  match bufs with
  | [] => []
  | b :: rest =>
    match b with
    | Some b => [EvWrite ImgWriter b (writeErr enc ImgWriter i)]
    | None => []
    end ++ imgWrites enc (S i) rest
  end.

(** The goroutine that feeds the image pipe; the deferred [Close] runs
    last. *)
Definition imgWriterRoutine (enc : encoderRun) (bufs : list (option bytes)) : list event :=
  imgWrites enc 0 bufs ++ [EvClose ImgWriter].

(** The goroutine that feeds the audio pipe. *)
Definition audWriterRoutine (enc : encoderRun) (aud : bytes) : list event :=
  [EvWrite AudWriter aud (writeErr enc AudWriter 0)] ++ [EvClose AudWriter].

(** Goroutines running side by side: [sched] names the goroutine that
    takes each next step (a choice naming a finished goroutine is void);
    when the choices are used up the remaining goroutines run to their
    end. *)
Fixpoint runThreads (sched : list nat) (ths : list (list event)) : list event :=
  match sched with
  | [] => concat ths
  | t :: sched' =>
    match ths !! t with
    | Some (e :: rest) => e :: runThreads sched' (<[t := rest]> ths)
    | _ => runThreads sched' ths
    end
  end.

Section Compositor.

Variable httpGet : string -> httpResult.

Definition downloadToMem (u : string) : option bytes * bool :=
  match httpGet u with
  | GetFails => (None, true)
  | GetBody b e => (Some b, e)
  end.

(** The body of one download goroutine. *)
Definition runTask (st : fetched) (t : fetchTask) : fetched :=
  match t with
  | AudioTask u => Fetched (fst (downloadToMem u)) (imgBufs st)
  | ImageTask idx u => Fetched (audBuf st) (<[idx := fst (downloadToMem u)]> (imgBufs st))
  end.

(** The goroutines started before [wg.Wait()]. *)
Definition spawned (imageURLs : list string) (audioURL : string) : list fetchTask :=
  AudioTask audioURL :: imap ImageTask imageURLs.

(** The state at the barrier, the goroutines having finished in the
    order [order]. *)
Definition fetchAll (order : list fetchTask) (n : nat) : fetched :=
  foldl runTask (Fetched None (replicate n None)) order.

Definition defaultDuration (duration : Z) : Z :=
  if duration <=? 0 then 10 else duration.

(** [makeVideo].  [order] is the order in which the download goroutines
    finish, [sched] the interleaving of the main goroutine (index 0) with
    the image writer (1) and the audio writer (2).  The result is the pair
    returned by the Go function and the trace of process and pipe
    events. *)
Definition makeVideo (enc : encoderRun) (order : list fetchTask) (sched : list nat)
    (imageURLs : list string) (audioURL : string) (duration : Z)
    : (option bytes * option string) * list event :=
  let duration := defaultDuration duration in
  let st := fetchAll order (length imageURLs) in
  match audBuf st with
  | None => ((None, Some "failed to download audio"), [])
  | Some aud =>
    let frameRate :=
      PrimFloat.div (float64 (Z.of_nat (length imageURLs))) (float64 duration) in
    match startErr enc with
    | Some e => ((None, Some e), [EvStartFailed])
    | None =>
      let tr := EvStart frameRate ::
                runThreads sched [[EvWait]; imgWriterRoutine enc (imgBufs st);
                                  audWriterRoutine enc aud] in
      match waitErr enc with
      | Some e => ((None, Some ("ffmpeg: " +:+ e +:+ ", stderr: " +:+ stderr enc)), tr)
      | None => ((Some (stdout enc), None), tr)
      end
    end
  end.

End Compositor.

(** ** Routing of updates *)

Record inlineQuery := InlineQueryOf { ID : string; Query : string }.
Record message := MessageOf { ChatID : Z; Text : string }.

(** An update of the bot API; a field is [None] when nil. *)
Record update := Update {
  InlineQuery : option inlineQuery;
  Message : option message
}.

(** [mainRouter]; [bot] is the value of [BOT_USERNAME], and [rnd], [nanos]
    and [now] are what the handler reads from the random source and the
    clock. *)
Definition mainRouter (fetchTikTok : string -> option response) (bot : string)
    (u : update) (rnd : randSource) (nanos now : Z) : M unit :=
  match InlineQuery u with
  | Some q => handlerInline fetchTikTok bot (ID q) (Query q) rnd nanos now
  | None =>
    match Message u with
    | Some m => handlerMessage fetchTikTok (ChatID m) (Text m) now
    | None => mret tt
    end
  end.

(** An update together with what the world answers while it is handled. *)
Record arrival := Arrival {
  arrUpdate : update;
  arrResolver : string -> option response;
  arrRand : randSource;
  arrNanos : Z;
  arrNow : Z
}.

(** Updates handled one after the other. *)
Fixpoint runUpdates (bot : string) (arrivals : list arrival) : M unit :=
  match arrivals with
  | [] => mret tt
  | a :: rest =>
    mainRouter (arrResolver a) bot (arrUpdate a) (arrRand a) (arrNanos a) (arrNow a);;
    runUpdates bot rest
  end.

(** ** Start-up: the process environment and the .env file *)

Abbreviation environ := (gmap string string).

(** [os.Getenv] and [os.LookupEnv]. *)
Definition Getenv (env : environ) (key : string) : string :=
  default EmptyString (env !! key).

Definition LookupEnv (env : environ) (key : string) : string * bool :=
  match env !! key with
  | Some v => (v, true)
  | None => (EmptyString, false)
  end.

Fixpoint hasByte (c : ascii) (s : string) : bool :=
  match s with
  | EmptyString => false
  | String d r => Ascii.eqb d c || hasByte c r
  end.

(** [os.Setenv] on Unix: an empty key, a key holding '=' or a NUL byte and
    a value holding a NUL byte are refused, and the environment is left as
    it is. *)
Definition Setenv (key value : string) (env : environ) : environ :=
  if String.eqb key EmptyString || hasByte "=" key || hasByte Ascii.zero key
     || hasByte Ascii.zero value
  then env
  else <[key := value]> env.

(** [cutAt sep s]: the text before and the text after the first [sep]. *)
Fixpoint cutAt (sep : ascii) (s : string) : option (string * string) :=
  match s with
  | EmptyString => None
  | String c r =>
    if Ascii.eqb c sep then Some (EmptyString, r)
    else
      match cutAt sep r with
      | Some (a, b) => Some (String c a, b)
      | None => None
      end
  end.

(** [strings.SplitN(s, sep, 2)] for a separator of one byte. *)
Definition SplitN2 (s : string) (sep : ascii) : list string :=
  match cutAt sep s with
  | Some (a, b) => [a; b]
  | None => [s]
  end.

(** [strings.Trim(s, cutset)] for a cutset of one ASCII byte. *)
Fixpoint trimLeftByte (c : ascii) (s : string) : string :=
  match s with
  | EmptyString => EmptyString
  | String d r => if Ascii.eqb d c then trimLeftByte c r else s
  end.

Fixpoint trimRightByte (c : ascii) (s : string) : string :=
  match s with
  | EmptyString => EmptyString
  | String d r =>
    match trimRightByte c r with
    | EmptyString => if Ascii.eqb d c then EmptyString else String d EmptyString
    | r' => String d r'
    end
  end.

Definition Trim (s : string) (c : ascii) : string := trimRightByte c (trimLeftByte c s).

Definition quote : ascii := "034"%char.

(** The body of the loop of [loadEnvFile] for one line of the file. *)
Definition envLine (env : environ) (text : string) : environ :=
  let line := TrimSpace text in
  if String.eqb line EmptyString || HasPrefix line "#" then env
  else
    let parts := SplitN2 line "=" in
    if negb (length parts =? 2)%nat then env
    else
      let key := TrimSpace (parts !!! 0%nat) in
      let value := Trim (TrimSpace (parts !!! 1%nat)) quote in
      if String.eqb key EmptyString then env
      else if snd (LookupEnv env key) then env
      else Setenv key value env.

(** [loadEnvFile]; [file] is [None] when the file cannot be opened, and
    otherwise the lines the scanner yields. *)
Definition loadEnvFile (file : option (list string)) (env : environ) : environ :=
  match file with
  | None => env
  | Some lines => foldl envLine env lines
  end.

(** How [main] ends up: with one of its two panics, or running the bot
    with a token. *)
Inductive startup :=
| PanicEmptyToken
| PanicBotNew (err : string)
| Running (token : string).

(** [main] up to [b.Start]; [botNew] is the error of [bot.New], if any.
    The result is paired with the environment the handlers will read. *)
Definition mainStartup (botNew : string -> option string) (file : option (list string))
    (env : environ) : startup * environ :=
  let token := Getenv env "TOKEN" in
  let env' := if String.eqb token EmptyString then loadEnvFile file env else env in
  let token := if String.eqb token EmptyString then Getenv env' "TOKEN" else token in
  if String.eqb token EmptyString then (PanicEmptyToken, env')
  else
    match botNew token with
    | Some err => (PanicBotNew err, env')
    | None => (Running token, env')
    end.

(** ** Vocabulary of the statements *)

Definition notFound : string * bool := (EmptyString, false).

(** The world after the events [evs]. *)
Definition emitted (w : world) (evs : list event) : world :=
  World (mu w) (items w) (trace w ++ evs).


(** No white-space rune starts anywhere in [f]. *)
Definition spaceFree (f : string) : Prop :=
  forall i, spaceWidth (dropBytes i f) = 0%nat.

(** An ASCII byte that is not white space. *)
Definition tokenChar (c : ascii) : bool := negb (asciiSpace c) && (code c <? 0x80)%N.

Fixpoint allChars (P : ascii -> bool) (s : string) : bool :=
  match s with
  | EmptyString => true
  | String c r => P c && allChars P r
  end.

(** A link as [tiktokRegex] accepts it. *)
Definition isLink (m : string) : Prop :=
  exists scheme host path,
    (scheme = "http" \/ scheme = "https") /\
    (host = "vm" \/ host = "vt" \/ host = "www") /\
    path <> EmptyString /\ allChars isPathChar path = true /\
    m = scheme +:+ "://" +:+ host +:+ ".tiktok.com/" +:+ path.

(** Every resource the cache holds is a link. *)
Definition linksOnly (m : gmap string cacheItem) : Prop :=
  forall k item, m !! k = Some item -> isLink (url item).

(** A call of the bot API. *)
Definition isSend (e : event) : bool :=
  match e with
  | EvSendMessage _ _ _ | EvSendMediaGroup _ _ | EvAnswerInlineQuery _ _ => true
  | _ => false
  end.

(** [guardedFrom held tr]: read from a state where the mutex is held or
    not, the trace locks only a free mutex and unlocks only a held one,
    touches the map only while it holds the mutex, calls the bot API only
    while it does not, and ends with the mutex free. *)
Fixpoint guardedFrom (held : bool) (tr : list event) : bool :=
  match tr with
  | [] => negb held
  | e :: rest =>
    match e with
    | EvLock => negb held && guardedFrom true rest
    | EvUnlock => held && guardedFrom false rest
    | EvMapRead _ | EvMapWrite _ | EvMapDelete _ => held && guardedFrom held rest
    | _ => negb held && guardedFrom held rest
    end
  end.

(** A call that reads or writes the entry of token [T]. *)
Definition touches (T : string) (o : cacheOp) : Prop :=
  match o with
  | OpGet token _ => token = T
  | OpSet _ rnd nanos _ => randomToken 12 rnd nanos = T
  end.

Fixpoint lastByte (s : string) : option ascii :=
  match s with
  | EmptyString => None
  | String c EmptyString => Some c
  | String _ r => lastByte r
  end.

(** A variable as [loadEnvFile] adds it: a name that is not empty, holds
    no '=' and no NUL byte and neither begins nor ends with white space,
    and a value that holds no NUL byte and neither begins nor ends with a
    double quote. *)
Definition cleanEntry (key value : string) : Prop :=
  key <> EmptyString /\
  hasByte "=" key = false /\ hasByte Ascii.zero key = false /\
  spaceWidth key = 0%nat /\ trailingSpaceWidth key = 0%nat /\
  hasByte Ascii.zero value = false /\
  HasPrefix value (String quote EmptyString) = false /\ lastByte value <> Some quote.

(** A character of the URL-safe base64 alphabet. *)
Definition urlSafe (c : ascii) : bool :=
  let n := code c in
  (((97 <=? n) && (n <=? 122)) || ((65 <=? n) && (n <=? 90)) ||
   ((48 <=? n) && (n <=? 57)) || (n =? 45) || (n =? 95))%N.

(** An event that a handler of a message from chat [chatID] may cause: an
    operation on the cache, or a message or media group sent to that
    chat. *)
Definition repliesTo (chatID : Z) (e : event) : bool :=
  match e with
  | EvSendMessage c _ _ | EvSendMediaGroup c _ => (c =? chatID)
  | EvLock | EvUnlock | EvMapRead _ | EvMapWrite _ | EvMapDelete _ => true
  | _ => false
  end.

Definition exWorld : world :=
  World false {[ "old" := CacheItem "https://www.tiktok.com/a" 100;
                 "new" := CacheItem "https://www.tiktok.com/b" 900 ]} [].

(** A network where "a", "c" and "m" answer ("c" with a body cut short)
    and every other request fails; an encoder that runs to completion, the
    third write to the image pipe returning an error; a resolver that knows
    one slideshow. *)
Definition exNet (u : string) : httpResult :=
  if String.eqb u "a" then GetBody [Byte.x01] false
  else if String.eqb u "c" then GetBody [Byte.x03; Byte.x04] true
  else if String.eqb u "m" then GetBody [Byte.x09] false
  else GetFails.

Definition exEncoder : encoderRun :=
  EncoderRun None None [Byte.xff] EmptyString
    (fun p i => match p with ImgWriter => (i =? 2)%nat | AudWriter => false end).

Definition exFetch (link : string) : option response :=
  if String.eqb link "https://vm.tiktok.com/ZM1/"
  then Some (Response "t" "c" EmptyString "m" ["a"; "b"; "c"] 12)
  else None.

(** The pipe an event belongs to, and the buffer it writes. *)
Definition onPipe (p : pipeEnd) (e : event) : option event :=
  match e, p with
  | EvWrite ImgWriter _ _, ImgWriter | EvClose ImgWriter, ImgWriter
  | EvWrite AudWriter _ _, AudWriter | EvClose AudWriter, AudWriter => Some e
  | _, _ => None
  end.

Definition writtenTo (p : pipeEnd) (e : event) : option bytes :=
  match e, p with
  | EvWrite ImgWriter b _, ImgWriter | EvWrite AudWriter b _, AudWriter => Some b
  | _, _ => None
  end.

(** * Checks on concrete inputs *)

Example ex_token_ok :
  randomToken 12 (RandFills (fun i => default Byte.x00 (Byte.of_nat (i * 21)))) 0
  = "ABUqP1RpfpOovdLn".
Proof. vm_compute. reflexivity. Qed.

Example ex_token_fallback :
  randomToken 12 RandFails 1700000000123456789 = "1700000000123456789".
Proof. vm_compute. reflexivity. Qed.

Example ex_format : formatInt 0 = "0" /\ formatInt (-15) = "-15".
Proof. split; vm_compute; reflexivity. Qed.

Example ex_fields :
  Fields ("  /start" +:+ String (ascii_of_N 0xC2) (String (ascii_of_N 0xA0) "tt_abc  x "))
  = ["/start"; "tt_abc"; "x"].
Proof. vm_compute. reflexivity. Qed.

Example ex_trim :
  TrimSpace (String (ascii_of_N 0xE2) (String (ascii_of_N 0x80) (String (ascii_of_N 0x83)
               (" a b " +:+ String (ascii_of_N 0xE3) (String (ascii_of_N 0x80)
                               (String (ascii_of_N 0x80) EmptyString))))))
  = "a b".
Proof. vm_compute. reflexivity. Qed.

Example ex_get_set :
  (x ← set "u" RandFails 5 0; get x cacheTTL) newLinkCache
  = Some (("u", true), World false {["5" := CacheItem "u" cacheTTL]} [EvLock; EvMapWrite "5"; EvUnlock; EvLock; EvMapRead "5"; EvUnlock]).
Proof. vm_compute. reflexivity. Qed.

Example ex_groups :
  (sendPhotoGroups 7 ["a";"b";"c";"d";"e";"f";"g";"h";"i";"j";"k";"l"] "cap") newLinkCache
  = Some (tt, World false ∅
      [EvSendMediaGroup 7
         (MediaPhoto "a" "cap" ParseModeMarkdown ::
          map (fun u => MediaPhoto u EmptyString ParseModeNone)
              ["b"; "c"; "d"; "e"; "f"; "g"; "h"; "i"; "j"]);
       EvSendMediaGroup 7
         [MediaPhoto "k" "cap" ParseModeMarkdown; MediaPhoto "l" EmptyString ParseModeNone]]).
Proof. vm_compute. reflexivity. Qed.

Example ex_makeVideo :
  makeVideo exNet exEncoder
    [ImageTask 2 "c"; AudioTask "m"; ImageTask 0 "a"; ImageTask 1 "b"] [1; 2; 0; 2]%nat
    ["a"; "b"; "c"] "m" 0
  = ((Some [Byte.xff], None),
     [EvStart (PrimFloat.div 3 10); EvWrite ImgWriter [Byte.x01] false;
      EvWrite AudWriter [Byte.x09] false; EvWait; EvClose AudWriter;
      EvWrite ImgWriter [Byte.x03; Byte.x04] true; EvClose ImgWriter]).
Proof. vm_compute. reflexivity. Qed.

Example ex_find :
  FindString "see https://vm.tiktok.com/ZMabc12/?x=1 and http://www.tiktok.com/b"
  = "https://vm.tiktok.com/ZMabc12/".
Proof. vm_compute. reflexivity. Qed.

Example ex_find_none :
  FindString "https://m.tiktok.com/abc http://vt.tiktok.com/" = EmptyString.
Proof. vm_compute. reflexivity. Qed.

(** * Properties *)

(** ** The cache *)

Lemma set_run w u rnd nanos now :
  mu w = false ->
  set u rnd nanos now w =
    Some (randomToken 12 rnd nanos,
          World false
            (<[randomToken 12 rnd nanos := CacheItem u (now + cacheTTL)]> (items w))
            (trace w ++ [EvLock; EvMapWrite (randomToken 12 rnd nanos); EvUnlock])).
Proof.
  intros Hmu. unfold set, Lock, mapStore, Unlock, Add, mbind, M_bind, mret, M_ret.
  rewrite Hmu. cbn. by rewrite <- !app_assoc.
Qed.

Lemma get_run w token now :
  mu w = false ->
  get token now w =
    match items w !! token with
    | None =>
      Some (notFound, World false (items w) (trace w ++ [EvLock; EvMapRead token; EvUnlock]))
    | Some item =>
      if After now (expires item)
      then Some (notFound,
                 World false (delete token (items w))
                   (trace w ++ [EvLock; EvMapRead token; EvMapDelete token; EvUnlock]))
      else Some ((url item, true),
                 World false (items w) (trace w ++ [EvLock; EvMapRead token; EvUnlock]))
    end.
Proof.
  intros Hmu.
  unfold get, defer, Lock, mapLookup, mapDelete, Unlock, mbind, M_bind, mret, M_ret.
  rewrite Hmu. cbn.
  destruct (items w !! token) as [item|]; cbn.
  - destruct (After now (expires item)); cbn; by rewrite <- !app_assoc.
  - by rewrite <- !app_assoc.
Qed.

(** A call never leaves the mutex held, and it touches no key but its own:
    every other key keeps its entry; the key of a [get] keeps its entry or
    loses it. *)
Lemma runOp_key T o w :
  mu w = false -> ¬ mints T o ->
  exists w', runOp o w = Some (tt, w') /\ mu w' = false /\
             (items w' !! T = None \/ items w' !! T = items w !! T).
Proof.
  intros Hmu Hm. destruct o as [token now|u rnd nanos now]; cbn [runOp].
  - unfold mbind, M_bind. rewrite get_run by done.
    destruct (items w !! token) as [item|] eqn:E.
    + destruct (After now (expires item)).
      * eexists. split; [reflexivity|]. split; [done|]. cbn.
        destruct (decide (token = T)) as [->|Hne].
        -- left. apply lookup_delete_eq.
        -- right. by apply lookup_delete_ne.
      * eexists. split; [reflexivity|]. cbn. auto.
    + eexists. split; [reflexivity|]. cbn. auto.
  - unfold mbind, M_bind. rewrite set_run by done.
    eexists. split; [reflexivity|]. split; [done|]. cbn.
    right. apply lookup_insert_ne. exact Hm.
Qed.

Lemma runOps_key T ops : forall w,
  mu w = false -> Forall (fun o => ¬ mints T o) ops ->
  exists w', runOps ops w = Some (tt, w') /\ mu w' = false /\
             (items w' !! T = None \/ items w' !! T = items w !! T).
Proof.
  induction ops as [|o ops IH]; intros w Hmu Hall.
  - exists w. cbn. auto.
  - apply Forall_cons in Hall as [Ho Hall].
    destruct (runOp_key T o w Hmu Ho) as (w1 & Hrun & Hmu1 & Hk1).
    destruct (IH w1 Hmu1 Hall) as (w2 & Hrun2 & Hmu2 & Hk2).
    exists w2. cbn [runOps]. unfold mbind, M_bind at 1. rewrite Hrun.
    split; [exact Hrun2|]. split; [done|].
    destruct Hk2 as [-> | ->]; auto.
Qed.


(** At the instant [t0 + cacheTTL] itself the entry is still served:
    [After] is strict. *)
Lemma get_at_deadline w u rnd nanos t0 :
  mu w = false ->
  exists w', (tok ← set u rnd nanos t0; get tok (t0 + cacheTTL)) w = Some ((u, true), w').
Proof.
  intros Hmu. unfold mbind, M_bind at 1. rewrite set_run by done.
  rewrite get_run by done. cbn [items]. rewrite lookup_insert_eq. cbn [expires url].
  unfold After. rewrite Z.ltb_irrefl. eauto.
Qed.

(** C1, as the specification words it, fails on the code: a [get] made
    exactly [cacheTTL] after the [set] (a time greater than or equal to the
    insertion time plus the TTL) still returns the resource. *)
Lemma expiry_at_deadline_counterexample :
  let t0 := 1000 in
  let t := t0 + cacheTTL in
  t >= t0 + cacheTTL /\
  fst <$> (tok ← set "https://vm.tiktok.com/ZM1/" RandFails 42 t0; get tok t) newLinkCache
    = Some ("https://vm.tiktok.com/ZM1/", true).
Proof. split; [lia | vm_compute; reflexivity]. Qed.

(** C1 (amended): a token inserted by [set] at time [t0] is not found by a
    [get] made at any time strictly after [t0 + cacheTTL], whatever calls
    were made on the cache in between (lookups do not extend the entry),
    and it is not found by any later [get] either, whatever calls come in
    between and whatever the clock then reads.  The calls in between are
    any lookups, of this token or others, and any insertions that do not
    mint this very token anew. *)
Theorem expiry_is_permanent w u rnd nanos t0 t t' (before later : list cacheOp) :
  mu w = false ->
  Forall (fun o => ¬ mints (randomToken 12 rnd nanos) o) before ->
  Forall (fun o => ¬ mints (randomToken 12 rnd nanos) o) later ->
  t0 + cacheTTL < t ->
  exists w',
    (tok ← set u rnd nanos t0;
     runOps before;;
     r1 ← get tok t;
     runOps later;;
     r2 ← get tok t';
     mret (r1, r2)) w = Some ((notFound, notFound), w').
Proof.
  intros Hmu Hb Hl Ht.
  set (T := randomToken 12 rnd nanos).
  unfold mbind, M_bind at 1. rewrite set_run by done. fold T.
  match goal with |- context [World false ?m ?tr] => set (w1 := World false m tr) end.
  destruct (runOps_key T before w1 eq_refl Hb) as (w2 & Hrun2 & Hmu2 & Hk2).
  unfold mbind, M_bind at 1. rewrite Hrun2.
  unfold mbind, M_bind at 1. rewrite (get_run w2 T t Hmu2).
  assert (Hgone : exists w3, mu w3 = false /\ items w3 !! T = None /\
            match items w2 !! T with
            | Some item =>
              if After t (expires item)
              then Some (notFound, World false (delete T (items w2))
                     (trace w2 ++ [EvLock; EvMapRead T; EvMapDelete T; EvUnlock]))
              else Some ((url item, true), World false (items w2)
                     (trace w2 ++ [EvLock; EvMapRead T; EvUnlock]))
            | None => Some (notFound, World false (items w2)
                     (trace w2 ++ [EvLock; EvMapRead T; EvUnlock]))
            end = Some (notFound, w3)).
  { destruct Hk2 as [Hk2 | Hk2].
    - rewrite Hk2. eexists. split; [|split; [|reflexivity]]; done.
    - rewrite Hk2. subst w1. cbn [items]. rewrite lookup_insert_eq. cbn [expires].
      unfold After. destruct (Z.ltb_spec (t0 + cacheTTL) t) as [_|Hge]; [|lia].
      eexists. split; [|split; [|reflexivity]]; [done|]. cbn. apply lookup_delete_eq. }
  destruct Hgone as (w3 & Hmu3 & Hk3 & ->).
  destruct (runOps_key T later w3 Hmu3 Hl) as (w4 & Hrun4 & Hmu4 & Hk4).
  unfold mbind, M_bind at 1. rewrite Hrun4.
  unfold mbind, M_bind at 1. rewrite (get_run w4 T t' Hmu4).
  assert (items w4 !! T = None) as -> by (destruct Hk4 as [-> | ->]; done).
  eexists. reflexivity.
Qed.

Lemma expiry_is_permanent_witness :
  exists w',
    (tok ← set "https://vm.tiktok.com/ZM1/" RandFails 42 1000;
     runOps [OpGet "42" 2000; OpSet "https://vt.tiktok.com/x" RandFails 43 2500;
             OpGet "zz" (1000 + cacheTTL + 5)];;
     r1 ← get tok (1000 + cacheTTL + 1);
     runOps [OpGet "42" 3000];;
     r2 ← get tok 0;
     mret (r1, r2)) newLinkCache = Some ((notFound, notFound), w').
Proof.
  apply (expiry_is_permanent newLinkCache "https://vm.tiktok.com/ZM1/" RandFails 42 1000
           (1000 + cacheTTL + 1) 0
           [OpGet "42" 2000; OpSet "https://vt.tiktok.com/x" RandFails 43 2500;
            OpGet "zz" (1000 + cacheTTL + 5)]
           [OpGet "42" 3000]).
  - reflexivity.
  - repeat constructor; cbn; try tauto. vm_compute. discriminate.
  - repeat constructor; cbn; tauto.
  - unfold cacheTTL, Minute. lia.
Defined.

(** C2: the token returned by [set] for a resource, looked up before the
    TTL has elapsed, yields that resource, found. *)
Theorem token_round_trip w (R : string) rnd nanos t0 t :
  mu w = false ->
  t < t0 + cacheTTL ->
  exists w', (tok ← set R rnd nanos t0; get tok t) w = Some ((R, true), w').
Proof.
  intros Hmu Ht. unfold mbind, M_bind at 1. rewrite set_run by done.
  rewrite get_run by done. cbn [items]. rewrite lookup_insert_eq. cbn [expires url].
  unfold After. destruct (Z.ltb_spec (t0 + cacheTTL) t) as [Hlt|_]; [lia|]. eauto.
Qed.

Lemma token_round_trip_witness :
  exists w',
    (tok ← set "https://vt.tiktok.com/abc" (RandFills (fun _ => Byte.x2a)) 0 500;
     get tok (500 + 9 * Minute)) newLinkCache
    = Some (("https://vt.tiktok.com/abc", true), w').
Proof.
  apply (token_round_trip newLinkCache "https://vt.tiktok.com/abc"
           (RandFills (fun _ => Byte.x2a)) 0 500 (500 + 9 * Minute)).
  - reflexivity.
  - unfold cacheTTL, Minute. lia.
Defined.

(** C3: [get] on a token whose entry has expired deletes that entry, and
    nothing else, between the [Lock] and the [Unlock] that also enclose the
    read, and reports not-found; on an absent token or a live entry it
    leaves the map as it was and performs no write at all. *)
Theorem get_frame w T now :
  mu w = false ->
  (forall item, items w !! T = Some item -> expires item < now ->
     exists w', get T now w = Some (notFound, w') /\
       mu w' = false /\
       items w' = delete T (items w) /\
       items w' !! T = None /\
       (forall k, k <> T -> items w' !! k = items w !! k) /\
       trace w' = trace w ++ [EvLock; EvMapRead T; EvMapDelete T; EvUnlock]) /\
  (items w !! T = None \/ (exists item, items w !! T = Some item /\ now <= expires item) ->
     exists r w', get T now w = Some (r, w') /\
       mu w' = false /\
       items w' = items w /\
       r = match items w !! T with Some item => (url item, true) | None => notFound end /\
       trace w' = trace w ++ [EvLock; EvMapRead T; EvUnlock]).
Proof.
  intros Hmu. split.
  - intros item Hit Hexp. rewrite get_run by done. rewrite Hit.
    unfold After. destruct (Z.ltb_spec (expires item) now) as [_|Hge]; [|lia].
    eexists. split; [reflexivity|]. cbn.
    repeat split; try done.
    + apply lookup_delete_eq.
    + intros k Hk. by apply lookup_delete_ne.
  - intros [Hnone | (item & Hit & Hlive)]; rewrite get_run by done.
    + rewrite Hnone. do 2 eexists. split; [reflexivity|]. cbn. done.
    + rewrite Hit. unfold After.
      destruct (Z.ltb_spec (expires item) now) as [Hlt|_]; [lia|].
      do 2 eexists. split; [reflexivity|]. cbn. done.
Qed.

Lemma get_frame_witness :
  (exists w', get "old" 500 exWorld = Some (notFound, w') /\
     items w' = delete "old" (items exWorld) /\
     trace w' = [EvLock; EvMapRead "old"; EvMapDelete "old"; EvUnlock]) /\
  (exists r w', get "new" 500 exWorld = Some (r, w') /\
     items w' = items exWorld /\ r = ("https://www.tiktok.com/b", true)).
Proof.
  destruct (get_frame exWorld "old" 500 eq_refl) as [Hexp _].
  destruct (get_frame exWorld "new" 500 eq_refl) as [_ Hlive].
  split.
  - destruct (Hexp (CacheItem "https://www.tiktok.com/a" 100)) as (w' & H1 & _ & H2 & _ & _ & H3).
    + vm_compute. reflexivity.
    + cbn. lia.
    + exists w'. auto.
  - destruct Hlive as (r & w' & H1 & _ & H2 & H3 & _).
    + right. exists (CacheItem "https://www.tiktok.com/b" 900). split; [vm_compute; reflexivity | cbn; lia].
    + exists r, w'. split; [exact H1|]. split; [exact H2|]. rewrite H3. vm_compute. reflexivity.
Defined.

(** ** Token generation *)



(** ** Strings *)

Lemma sapp_cons x a b : String x a +:+ b = String x (a +:+ b).
Proof. reflexivity. Qed.

Lemma sapp_nil_l b : EmptyString +:+ b = b.
Proof. reflexivity. Qed.

Lemma sapp_nil_r s : s +:+ EmptyString = s.
Proof. induction s as [|c s IH]; [done|]. by rewrite sapp_cons, IH. Qed.

Lemma sapp_assoc a b c : (a +:+ b) +:+ c = a +:+ (b +:+ c).
Proof. induction a as [|x a IH]; [done|]. by rewrite !sapp_cons, IH. Qed.

Lemma length_sapp a b : String.length (a +:+ b) = (String.length a + String.length b)%nat.
Proof. induction a as [|x a IH]; [done|]. rewrite sapp_cons. cbn. by rewrite IH. Qed.

Lemma dropBytes_sapp i a b :
  (i <= String.length a)%nat -> dropBytes i (a +:+ b) = dropBytes i a +:+ b.
Proof.
  revert i. induction a as [|x a IH]; intros [|i] Hi; cbn in Hi; try done; try lia.
  rewrite sapp_cons. cbn [dropBytes]. apply IH. lia.
Qed.

Lemma dropBytes_all i a : (String.length a <= i)%nat -> dropBytes i a = EmptyString.
Proof.
  revert i. induction a as [|x a IH]; intros [|i] Hi; cbn in *; try done; try lia.
  apply IH. lia.
Qed.

Lemma dropBytes_length_sapp a b : dropBytes (String.length a) (a +:+ b) = b.
Proof. induction a as [|x a IH]; [by destruct b|]. by rewrite sapp_cons. Qed.

(** A white-space rune found at the head of a string is found at the head
    of every extension of it. *)
Lemma spaceWidth_sapp p s : spaceWidth p <> 0%nat -> spaceWidth (p +:+ s) = spaceWidth p.
Proof.
  destruct p as [|c [|d [|e p]]]; rewrite ?sapp_cons, ?sapp_nil_l; cbn; try done.
  - destruct (asciiSpace c); [done|]. done.
  - destruct (asciiSpace c); [done|].
    destruct (_ && _); [done|]. done.
Qed.

Lemma spaceWidth_prefix_0 p s : spaceWidth (p +:+ s) = 0%nat -> spaceWidth p = 0%nat.
Proof.
  intros H. destruct (decide (spaceWidth p = 0%nat)) as [|Hne]; [done|].
  rewrite spaceWidth_sapp in H; done.
Qed.

Lemma fieldsFrom_spaceFree s : forall skip cur f,
  (forall i, (i < String.length cur)%nat -> spaceWidth (dropBytes i (cur +:+ s)) = 0%nat) ->
  (skip <> 0%nat -> cur = EmptyString) ->
  f ∈ fieldsFrom s skip cur ->
  f <> EmptyString /\ spaceFree f.
Proof.
  assert (Hflush : forall cur s f,
    (forall i, (i < String.length cur)%nat -> spaceWidth (dropBytes i (cur +:+ s)) = 0%nat) ->
    f ∈ flush cur -> f <> EmptyString /\ spaceFree f).
  { intros cur s' f Hinv Hin. destruct cur as [|c cur]; cbn in Hin.
    - by apply elem_of_nil in Hin.
    - apply list_elem_of_singleton in Hin as ->. split; [done|].
      intros i. destruct (decide (i < String.length (String c cur))%nat) as [Hi|Hi].
      + specialize (Hinv i Hi). rewrite dropBytes_sapp in Hinv by lia.
        by apply spaceWidth_prefix_0 in Hinv.
      + rewrite dropBytes_all by lia. done. }
  induction s as [|c r IH]; intros skip cur f Hinv Hskip Hin.
  - cbn in Hin. by apply (Hflush cur EmptyString).
  - cbn [fieldsFrom] in Hin. destruct skip as [|k].
    + destruct (spaceWidth (String c r)) as [|k] eqn:Hw.
      * apply IH in Hin; [done| |done].
        intros i Hi. rewrite sapp_assoc, sapp_cons, sapp_nil_l.
        rewrite length_sapp in Hi. cbn in Hi.
        destruct (decide (i < String.length cur)%nat) as [Hlt|Hge].
        -- by apply Hinv.
        -- replace i with (String.length cur) by lia.
           by rewrite dropBytes_length_sapp.
      * apply elem_of_app in Hin as [Hin|Hin].
        -- by apply (Hflush cur (String c r)).
        -- apply IH in Hin; [done| |done]. cbn. intros; lia.
    + rewrite Hskip in * by done. apply IH in Hin; [done| |done]. cbn. intros; lia.
Qed.

Lemma Fields_spaceFree text f : f ∈ Fields text -> f <> EmptyString /\ spaceFree f.
Proof.
  unfold Fields. apply fieldsFrom_spaceFree; [|done]. cbn. intros; lia.
Qed.

Lemma trailingSpaceWidth_spaceFree f : spaceFree f -> trailingSpaceWidth f = 0%nat.
Proof.
  intros Hf. unfold trailingSpaceWidth. rewrite !Hf. cbn.
  by rewrite !andb_false_r.
Qed.

Lemma TrimSpace_spaceFree f : spaceFree f -> TrimSpace f = f.
Proof.
  intros Hf. unfold TrimSpace, TrimLeftSpace.
  assert (trimLeftFrom f 0 = f) as ->.
  { destruct f as [|c r]; [done|]. cbn [trimLeftFrom].
    specialize (Hf 0%nat). cbn [dropBytes] in Hf. by rewrite Hf. }
  unfold TrimRightSpace. destruct (String.length f); cbn [trimRightFuel]; [done|].
  by rewrite trailingSpaceWidth_spaceFree.
Qed.

(** ** Batches *)

Lemma sendPhotoGroupsFrom_step chatID imageURLs caption i w :
  sendPhotoGroupsFrom chatID imageURLs caption i w =
  if decide (i < length imageURLs)%nat then
    (emit (EvSendMediaGroup chatID
             (imap (mediaItem caption)
                   (slice imageURLs i (chunkEnd (length imageURLs) i))));;
     sendPhotoGroupsFrom chatID imageURLs caption (i + groupSize)%nat) w
  else Some (tt, w).
Proof.
  rewrite sendPhotoGroupsFrom_equation_1.
  destruct (decide (i < length imageURLs)%nat) as [Hlt|Hge].
  - rewrite sendPhotoGroupsFrom_clause_1_equation_1. reflexivity.
  - reflexivity.
Qed.

(** Sizes of the chunks cut from [m] remaining items. *)
Lemma chunk_sizes_step m :
  (10 <= m)%nat ->
  (replicate (m / 10) 10 ++ (if (m mod 10 =? 0) then [] else [m mod 10]))%nat
  = (10 :: replicate ((m - 10) / 10) 10
        ++ (if ((m - 10) mod 10 =? 0) then [] else [(m - 10) mod 10]))%nat.
Proof.
  intros Hm.
  assert (Hd : (m / 10 = S ((m - 10) / 10))%nat).
  { replace m with (1 * 10 + (m - 10))%nat at 1 by lia.
    rewrite Nat.div_add_l by lia. lia. }
  assert (Hr : (m mod 10 = (m - 10) mod 10)%nat).
  { replace m with ((m - 10) + 1 * 10)%nat at 1 by lia.
    apply Nat.Div0.mod_add. }
  rewrite Hd, Hr. reflexivity.
Qed.

Lemma mediaItem_Media caption idx u : Media (mediaItem caption idx u) = u.
Proof. unfold mediaItem. by destruct (_ && _). Qed.

Lemma mediaItem_Caption caption idx u :
  Caption (mediaItem caption idx u) = if (idx =? 0)%nat then caption else EmptyString.
Proof.
  unfold mediaItem. destruct (idx =? 0)%nat; [|reflexivity]. cbn.
  destruct (String.eqb_spec caption EmptyString) as [->|]; reflexivity.
Qed.

Lemma map_Media_imap caption (chunk : list string) :
  map Media (imap (mediaItem caption) chunk) = chunk.
Proof.
  apply list_eq. intros j. rewrite list_lookup_fmap, list_lookup_imap.
  destruct (chunk !! j); cbn; [|done]. by rewrite mediaItem_Media.
Qed.

Lemma sendPhotoGroupsFrom_batches chatID (imageURLs : list string) caption n :
  forall i, (length imageURLs - i <= n)%nat ->
  exists groups : list (list InputMediaPhoto),
    (forall w, sendPhotoGroupsFrom chatID imageURLs caption i w
               = Some (tt, emitted w (map (EvSendMediaGroup chatID) groups))) /\
    map Media (concat groups) = drop i imageURLs /\
    (map length groups =
       let m := length imageURLs - i in
       replicate (m / 10) 10 ++ (if (m mod 10 =? 0) then [] else [m mod 10]))%nat /\
    Forall (fun g => forall (j : nat) item, g !! j = Some item ->
               Caption item = if (j =? 0)%nat then caption else EmptyString) groups.
Proof.
  induction n as [|n IH]; intros i Hn.
  - exists []. split; [|split; [|split]].
    + intros w. rewrite sendPhotoGroupsFrom_step. destruct decide; [lia|].
      unfold emitted. cbn. rewrite app_nil_r. by destruct w.
    + cbn. symmetry. apply drop_ge. lia.
    + replace (length imageURLs - i)%nat with 0%nat by lia. reflexivity.
    + constructor.
  - destruct (decide (i < length imageURLs)%nat) as [Hlt|Hge].
    2:{ apply IH. lia. }
    destruct (IH (i + groupSize)%nat) as (groups & Hrun & Hmedia & Hsizes & Hcap).
    { unfold groupSize. lia. }
    set (chunk := slice imageURLs i (chunkEnd (length imageURLs) i)).
    exists (imap (mediaItem caption) chunk :: groups).
    split; [|split; [|split]].
    + intros w. rewrite sendPhotoGroupsFrom_step. destruct decide; [|lia].
      unfold mbind, M_bind, emit. rewrite Hrun. unfold emitted. cbn.
      by rewrite <- app_assoc.
    + cbn [concat]. rewrite map_app, map_Media_imap, Hmedia.
      subst chunk. unfold slice, chunkEnd, groupSize.
      destruct (Nat.ltb_spec (length imageURLs) (i + 10)) as [Hshort|Hfull].
      * rewrite (drop_ge imageURLs (i + 10)) by lia. rewrite app_nil_r.
        apply take_ge. rewrite length_drop. lia.
      * replace (i + 10 - i)%nat with 10%nat by lia.
        rewrite <- drop_drop. apply take_drop.
    + cbn [map]. rewrite length_imap. rewrite Hsizes. subst chunk.
      unfold slice, chunkEnd, groupSize. rewrite length_take, length_drop. cbn zeta.
      destruct (Nat.ltb_spec (length imageURLs) (i + 10)) as [Hshort|Hfull].
      * replace (length imageURLs - (i + 10))%nat with 0%nat by lia.
        rewrite (Nat.div_small (length imageURLs - i)) by lia.
        rewrite (Nat.mod_small (length imageURLs - i)) by lia.
        destruct (Nat.eqb_spec (length imageURLs - i) 0); [lia|].
        cbn. f_equal. lia.
      * rewrite (chunk_sizes_step (length imageURLs - i)) by lia.
        replace (length imageURLs - i - 10)%nat with (length imageURLs - (i + 10))%nat by lia.
        f_equal. lia.
    + constructor; [|exact Hcap].
      intros j item Hj. rewrite list_lookup_imap in Hj.
      destruct (chunk !! j) as [u|]; [|done]. cbn in Hj. injection Hj as <-.
      apply mediaItem_Caption.
Qed.

Lemma sendPhotoGroups_total chatID (imageURLs : list string) caption :
  exists evs, forall w, sendPhotoGroups chatID imageURLs caption w = Some (tt, emitted w evs).
Proof.
  destruct (sendPhotoGroupsFrom_batches chatID imageURLs caption (length imageURLs) 0%nat)
    as (groups & Hrun & _); [lia|]. eauto.
Qed.

(** C6: [sendPhotoGroups] sends the URLs in consecutive batches, in order
    and without loss; every batch holds exactly ten items except the last,
    which holds the remainder when the count is not a multiple of ten (for
    23 URLs the sizes are 10, 10, 3); in every batch the first item carries
    the caption and no other item carries one. *)
Theorem photo_groups_batches chatID (imageURLs : list string) caption :
  exists groups : list (list InputMediaPhoto),
    (forall w, sendPhotoGroups chatID imageURLs caption w
               = Some (tt, emitted w (map (EvSendMediaGroup chatID) groups))) /\
    map Media (concat groups) = imageURLs /\
    (map length groups =
       let n := length imageURLs in
       replicate (n / 10) 10 ++ (if (n mod 10 =? 0) then [] else [n mod 10]))%nat /\
    (length imageURLs = 23%nat -> map length groups = [10; 10; 3]%nat) /\
    Forall (fun g => forall (j : nat) item, g !! j = Some item ->
               Caption item = if (j =? 0)%nat then caption else EmptyString) groups.
Proof.
  destruct (sendPhotoGroupsFrom_batches chatID imageURLs caption (length imageURLs) 0%nat)
    as (groups & Hrun & Hmedia & Hsizes & Hcap); [lia|].
  rewrite Nat.sub_0_r in Hsizes. cbn zeta in Hsizes.
  exists groups. split; [exact Hrun|]. split; [exact Hmedia|].
  split; [exact Hsizes|]. split; [|exact Hcap].
  intros H23. rewrite Hsizes, H23. reflexivity.
Qed.

Lemma photo_groups_batches_witness :
  exists groups : list (list InputMediaPhoto),
    sendPhotoGroups 7 ((fun i => String (ascii_of_nat (65 + i)) EmptyString) <$> seq 0 23) "[src](x)"
      newLinkCache
      = Some (tt, emitted newLinkCache (map (EvSendMediaGroup 7) groups)) /\
    map length groups = [10; 10; 3]%nat.
Proof.
  destruct (photo_groups_batches 7
              ((fun i => String (ascii_of_nat (65 + i)) EmptyString) <$> seq 0 23) "[src](x)")
    as (groups & Hrun & _ & _ & H23 & _).
  exists groups. split; [apply Hrun | apply H23; reflexivity].
Defined.

(** ** Tokens hold no white space *)

Lemma spaceWidth_tokenChar c r : tokenChar c = true -> spaceWidth (String c r) = 0%nat.
Proof.
  unfold tokenChar. intros [Hsp Hlt%N.ltb_lt]%andb_true_iff.
  apply negb_true_iff in Hsp. cbn [spaceWidth]. rewrite Hsp.
  assert (H1 : (code c =? 0xC2)%N = false) by (apply N.eqb_neq; lia).
  assert (H2 : (code c =? 0xE1)%N = false) by (apply N.eqb_neq; lia).
  assert (H3 : (code c =? 0xE2)%N = false) by (apply N.eqb_neq; lia).
  assert (H4 : (code c =? 0xE3)%N = false) by (apply N.eqb_neq; lia).
  destruct r as [|d [|e r]]; [done| |]; rewrite H1; cbn [andb]; [done|].
  by rewrite H2, H3, H4.
Qed.

Lemma allChars_spaceFree s : allChars tokenChar s = true -> spaceFree s.
Proof.
  intros Hs i. revert s Hs. induction i as [|i IH]; intros [|c r] Hs; try done.
  - cbn in Hs. apply andb_true_iff in Hs as [Hc _]. by apply spaceWidth_tokenChar.
  - cbn in Hs. apply andb_true_iff in Hs as [_ Hr]. cbn [dropBytes]. by apply IH.
Qed.

Lemma fieldsFrom_tokenChars s : forall cur,
  allChars tokenChar s = true -> fieldsFrom s 0 cur = flush (cur +:+ s).
Proof.
  induction s as [|c r IH]; intros cur Hs.
  - by rewrite sapp_nil_r.
  - cbn in Hs. apply andb_true_iff in Hs as [Hc Hr].
    cbn [fieldsFrom]. rewrite spaceWidth_tokenChar by done.
    rewrite IH by done. by rewrite sapp_assoc.
Qed.

Lemma encodeChar_tokenChar i : (i < 64)%N -> tokenChar (encodeChar i) = true.
Proof.
  intros Hi. rewrite <- (N2Nat.id i).
  assert (Hn : (N.to_nat i < 64)%nat) by lia.
  revert Hn. generalize (N.to_nat i). intros n Hn.
  do 64 (destruct n as [|n]; [vm_compute; reflexivity|]). lia.
Qed.

Lemma sextet_tokenChar val shift : tokenChar (sextet val shift) = true.
Proof.
  unfold sextet. apply encodeChar_tokenChar.
  change 0x3F%N with (N.ones 6). rewrite N.land_ones.
  apply N.mod_lt. done.
Qed.

Lemma EncodeToString_tokenChars src : allChars tokenChar (EncodeToString src) = true.
Proof.
  assert (H : forall n src, (length src <= n)%nat -> allChars tokenChar (EncodeToString src) = true).
  { induction n as [|n IH]; intros [|b0 [|b1 [|b2 rest]]] Hlen; cbn in Hlen; try lia;
      cbn [EncodeToString allChars]; rewrite ?sextet_tokenChar; try done.
    cbn [andb]. apply IH. lia. }
  by apply (H (length src)).
Qed.

Lemma string_of_uint_tokenChars d : allChars tokenChar (NilEmpty.string_of_uint d) = true.
Proof. induction d; cbn [NilEmpty.string_of_uint allChars]; rewrite ?IHd; done. Qed.

Lemma formatInt_tokenChars z : allChars tokenChar (formatInt z) = true.
Proof.
  assert (H : forall d, allChars tokenChar (NilZero.string_of_uint d) = true).
  { intros d. unfold NilZero.string_of_uint.
    destruct d; try done; apply string_of_uint_tokenChars. }
  unfold formatInt, NilZero.string_of_int.
  destruct (Z.to_int z) as [d|d]; cbn [allChars]; rewrite ?H; done.
Qed.

Lemma randomToken_tokenChars size rnd nanos :
  allChars tokenChar (randomToken size rnd nanos) = true.
Proof.
  unfold randomToken. destruct (randRead rnd size).
  - apply EncodeToString_tokenChars.
  - apply formatInt_tokenChars.
Qed.

(** ** Routing of chat messages *)

Section Routing.

Variable fetchTikTok : string -> option response.

Lemma sendTikTok_total chatID link :
  exists evs, forall w, sendTikTok fetchTikTok chatID link w = Some (tt, emitted w evs).
Proof.
  unfold sendTikTok. destruct (fetchTikTok link) as [rs|].
  - destruct (0 <? length (Images rs))%nat.
    + apply sendPhotoGroups_total.
    + destruct (negb _).
      * eexists. intros w. reflexivity.
      * exists []. intros w. unfold emitted. rewrite app_nil_r. by destruct w.
  - exists []. intros w. unfold emitted. rewrite app_nil_r. by destruct w.
Qed.

Lemma handleStartPayload_callback chatID text now p rest :
  Fields text = "/start" :: p :: rest ->
  HasPrefix p startTokenPref = true ->
  handleStartPayload fetchTikTok chatID text now =
    (r ← get (dropBytes 3 p) now;
     if negb (snd r) then
       emit (EvSendMessage chatID expiredText ParseModeNone);; mret true
     else
       sendTikTok fetchTikTok chatID (fst r);; mret true).
Proof.
  intros Hf Hp. unfold handleStartPayload. rewrite Hf.
  assert (Hin : p ∈ Fields text) by (rewrite Hf; set_solver).
  apply Fields_spaceFree in Hin as [_ Hfree].
  cbn -[TrimSpace HasPrefix TrimPrefix get]. rewrite (TrimSpace_spaceFree p Hfree).
  rewrite Hp. cbn [negb]. unfold TrimPrefix. rewrite Hp. reflexivity.
Qed.

Lemma handleStartPayload_other chatID text now :
  ¬ (exists p rest, Fields text = "/start" :: p :: rest /\ HasPrefix p startTokenPref = true) ->
  handleStartPayload fetchTikTok chatID text now = mret false.
Proof.
  intros Hno. unfold handleStartPayload.
  destruct (Fields text) as [|p0 [|p rest]] eqn:Hf; [done| |].
  - cbn. by destruct (String.eqb p0 "/start").
  - cbn -[TrimSpace HasPrefix TrimPrefix get String.eqb].
    destruct (String.eqb_spec p0 "/start") as [->|Hne]; [|done].
    cbn [negb].
    assert (Hin : p ∈ Fields text) by (rewrite Hf; set_solver).
    apply Fields_spaceFree in Hin as [_ Hfree].
    rewrite (TrimSpace_spaceFree p Hfree).
    destruct (HasPrefix p startTokenPref) eqn:Hp; [|done].
    exfalso. apply Hno. eauto.
Qed.

Lemma fieldsFrom_tokenChars_sapp a : forall s cur,
  allChars tokenChar a = true ->
  fieldsFrom (a +:+ s) 0 cur = fieldsFrom s 0 (cur +:+ a).
Proof.
  induction a as [|c a IH]; intros s cur Ha.
  - by rewrite sapp_nil_l, sapp_nil_r.
  - cbn in Ha. apply andb_true_iff in Ha as [Hc Hr].
    rewrite sapp_cons. cbn [fieldsFrom]. rewrite spaceWidth_tokenChar by done.
    rewrite IH by done. by rewrite sapp_assoc.
Qed.

Lemma fieldsFrom_space s cur :
  fieldsFrom (String " " s) 0 cur = flush cur ++ fieldsFrom s 0 EmptyString.
Proof. reflexivity. Qed.

Lemma deep_link_fields tok :
  allChars tokenChar tok = true ->
  Fields ("/start " +:+ startTokenPref +:+ tok) = ["/start"; startTokenPref +:+ tok].
Proof.
  intros Htok. unfold Fields.
  change ("/start " +:+ startTokenPref +:+ tok)
    with ("/start" +:+ String " " (startTokenPref +:+ tok)).
  rewrite fieldsFrom_tokenChars_sapp by reflexivity.
  rewrite fieldsFrom_space, fieldsFrom_tokenChars.
  - reflexivity.
  - unfold startTokenPref. rewrite !sapp_cons, sapp_nil_l. cbn [allChars]. by rewrite Htok.
Qed.

Lemma TrimPrefix_startTokenPref tok : TrimPrefix (startTokenPref +:+ tok) startTokenPref = tok.
Proof. reflexivity. Qed.

Lemma TrimPrefix_dropBytes tok : dropBytes 3 (startTokenPref +:+ tok) = tok.
Proof. reflexivity. Qed.

Lemma callback_decided text :
  (exists p rest, Fields text = "/start" :: p :: rest /\ HasPrefix p startTokenPref = true) \/
  ¬ (exists p rest, Fields text = "/start" :: p :: rest /\ HasPrefix p startTokenPref = true).
Proof.
  destruct (Fields text) as [|p0 [|p rest]].
  - right. intros (? & ? & ? & _). discriminate.
  - right. intros (? & ? & ? & _). discriminate.
  - destruct (String.eqb_spec p0 "/start") as [->|Hne].
    + destruct (HasPrefix p startTokenPref) eqn:Hp.
      * left. eauto.
      * right. intros (? & ? & [= <- <-] & Hp'). congruence.
    + right. intros (? & ? & [= -> _ _] & _). done.
Qed.

(** C10: a message is a deferred-handoff callback exactly when its first
    field is "/start" and a second field exists that starts with "tt_".
    For a callback the cache is asked for the second field without that
    prefix (for the text that a minted deep link produces, that is the
    minted token itself); when the cache does not find it the expiry
    notice is sent to the chat, otherwise the link is delivered.  Any
    other message makes [handleStartPayload] return false without
    touching the cache or sending anything, and [handlerMessage] goes on
    to look for a link in the text. *)
Theorem start_payload_dispatch chatID text now w :
  mu w = false ->
  let callback :=
    exists p rest, Fields text = "/start" :: p :: rest /\ HasPrefix p startTokenPref = true in
  ((exists w', handleStartPayload fetchTikTok chatID text now w = Some (true, w')) <-> callback) /\
  (forall p rest, Fields text = "/start" :: p :: rest -> HasPrefix p startTokenPref = true ->
     exists r w1,
       TrimPrefix p startTokenPref = dropBytes 3 p /\
       get (TrimPrefix p startTokenPref) now w = Some (r, w1) /\
       handleStartPayload fetchTikTok chatID text now w =
         (if snd r
          then (sendTikTok fetchTikTok chatID (fst r);; mret true) w1
          else Some (true, emitted w1 [EvSendMessage chatID expiredText ParseModeNone]))) /\
  (¬ callback ->
     handleStartPayload fetchTikTok chatID text now w = Some (false, w) /\
     handlerMessage fetchTikTok chatID text now w =
       (let link := FindString text in
        if String.eqb link EmptyString then mret tt
        else sendTikTok fetchTikTok chatID link) w) /\
  (forall rnd nanos,
     let tok := randomToken 12 rnd nanos in
     Fields ("/start " +:+ startTokenPref +:+ tok) = ["/start"; startTokenPref +:+ tok] /\
     TrimPrefix (startTokenPref +:+ tok) startTokenPref = tok).
Proof.
  intros Hmu callback.
  assert (Hcb : forall p rest, Fields text = "/start" :: p :: rest ->
            HasPrefix p startTokenPref = true ->
            exists r w1,
              TrimPrefix p startTokenPref = dropBytes 3 p /\
              get (TrimPrefix p startTokenPref) now w = Some (r, w1) /\
              handleStartPayload fetchTikTok chatID text now w =
                (if snd r
                 then (sendTikTok fetchTikTok chatID (fst r);; mret true) w1
                 else Some (true, emitted w1 [EvSendMessage chatID expiredText ParseModeNone]))).
  { intros p rest Hf Hp.
    assert (Htp : TrimPrefix p startTokenPref = dropBytes 3 p)
      by (unfold TrimPrefix; by rewrite Hp).
    rewrite (handleStartPayload_callback chatID text now p rest Hf Hp), Htp.
    unfold mbind at 1, M_bind at 1. rewrite get_run by done.
    destruct (items w !! dropBytes 3 p) as [item|].
    - destruct (After now (expires item)); do 2 eexists;
        (split; [reflexivity|]); (split; [reflexivity|]); reflexivity.
    - do 2 eexists. split; [reflexivity|]. split; reflexivity. }
  split; [|split; [exact Hcb|split]].
  - split.
    + intros [w' Hrun]. destruct (callback_decided text) as [|Hno]; [done|].
      rewrite handleStartPayload_other in Hrun by done. discriminate.
    + intros (p & rest & Hf & Hp).
      destruct (Hcb p rest Hf Hp) as (r & w1 & _ & _ & ->).
      destruct (snd r); [|eauto].
      destruct (sendTikTok_total chatID (fst r)) as [evs Hevs].
      unfold mbind, M_bind. rewrite Hevs. eauto.
  - intros Hno. rewrite handleStartPayload_other by done. split; [reflexivity|].
    unfold handlerMessage. destruct (String.eqb_spec text EmptyString) as [->|Hne].
    + reflexivity.
    + unfold mbind at 1, M_bind at 1. rewrite handleStartPayload_other by done.
      reflexivity.
  - intros rnd nanos tok. split; [|apply TrimPrefix_startTokenPref].
    apply deep_link_fields, randomToken_tokenChars.
Qed.

(** X25: the whole deferred handoff: the deep link minted by [handlerInline]
    for a slideshow, opened in the chat before the TTL has elapsed, makes
    [handleStartPayload] deliver that very link. *)
Lemma deferred_handoff_round_trip bot queryID query rnd nanos t0 chatID t w rs :
  mu w = false ->
  FindString query <> EmptyString ->
  fetchTikTok (FindString query) = Some rs ->
  (0 < length (Images rs))%nat ->
  bot <> EmptyString ->
  t < t0 + cacheTTL ->
  let tok := randomToken 12 rnd nanos in
  exists w1 w2,
    handlerInline fetchTikTok bot queryID query rnd nanos t0 w = Some (tt, w1) /\
    (exists article, trace w1 = trace w ++ [EvLock; EvMapWrite tok; EvUnlock;
        EvAnswerInlineQuery queryID (ResultArticle article (deepLink bot tok))]) /\
    get tok t w1 = Some ((FindString query, true), w2) /\
    handleStartPayload fetchTikTok chatID ("/start " +:+ startTokenPref +:+ tok) t w1 =
      (sendTikTok fetchTikTok chatID (FindString query);; mret true) w2.
Proof.
  intros Hmu Hlink Hfetch Himg Hbot Ht tok.
  unfold handlerInline.
  destruct (String.eqb_spec (FindString query) EmptyString) as [|_]; [done|].
  rewrite Hfetch.
  destruct (length (Images rs)) as [|n] eqn:Hlen; [lia|].
  rewrite andb_false_r. cbn [Nat.ltb Nat.leb].
  destruct (String.eqb_spec bot EmptyString) as [|_]; [done|].
  unfold mbind at 1, M_bind at 1. rewrite set_run by done. fold tok.
  unfold emit. cbn [mu items trace].
  match goal with |- context [Some (tt, ?w1)] => set (w1' := w1) end.
  assert (Hget : exists w2, get tok t w1' = Some ((FindString query, true), w2)).
  { rewrite get_run by done. subst w1'. cbn [items]. rewrite lookup_insert_eq.
    cbn [expires url]. unfold After.
    destruct (Z.ltb_spec (t0 + cacheTTL) t) as [Hlt|_]; [lia|]. eauto. }
  destruct Hget as [w2 Hget]. exists w1', w2.
  split; [reflexivity|]. split.
  { eexists. subst w1'. cbn [trace]. by rewrite <- app_assoc. }
  split; [exact Hget|].
  rewrite (handleStartPayload_callback chatID _ t (startTokenPref +:+ tok) []).
  - rewrite TrimPrefix_dropBytes. unfold mbind at 1, M_bind at 1. rewrite Hget. reflexivity.
  - apply deep_link_fields, randomToken_tokenChars.
  - reflexivity.
Qed.

End Routing.

Lemma start_payload_dispatch_witness :
  (exists w', handleStartPayload exFetch 5 "/start tt_nope" 0 newLinkCache = Some (true, w')) /\
  handleStartPayload exFetch 5 "/start" 0 newLinkCache = Some (false, newLinkCache).
Proof.
  destruct (start_payload_dispatch exFetch 5 "/start tt_nope" 0 newLinkCache eq_refl)
    as (Hiff & _).
  destruct (start_payload_dispatch exFetch 5 "/start" 0 newLinkCache eq_refl)
    as (_ & _ & Hother & _).
  split.
  - apply Hiff. exists "tt_nope", []. split; vm_compute; reflexivity.
  - apply Hother. intros (p & rest & Hf & _). vm_compute in Hf. discriminate.
Defined.

(** ** The fetch barrier *)

Section Fetch.

Variable httpGet : string -> httpResult.

Lemma length_imgBufs_runTask st t :
  length (imgBufs (runTask httpGet st t)) = length (imgBufs st).
Proof. destruct t; cbn; [done | apply length_insert]. Qed.

Lemma length_imgBufs_foldl ts : forall st,
  length (imgBufs (foldl (runTask httpGet) st ts)) = length (imgBufs st).
Proof.
  induction ts as [|t ts IH]; intros st; cbn; [done|].
  by rewrite IH, length_imgBufs_runTask.
Qed.

(** The slot of an image task that is the only one for its index holds
    that task's download once all tasks have run, whatever ran before or
    after it. *)
Lemma foldl_image_slot ts : forall st i u,
  ImageTask i u ∈ ts ->
  (forall u', ImageTask i u' ∈ ts -> u' = u) ->
  (i < length (imgBufs st))%nat ->
  imgBufs (foldl (runTask httpGet) st ts) !! i = Some (fst (downloadToMem httpGet u)).
Proof.
  induction ts as [|t ts IH] using rev_ind; intros st i u Hin Huniq Hi.
  - by apply elem_of_nil in Hin.
  - rewrite foldl_app. cbn [foldl].
    destruct t as [a|j u'']; cbn [runTask imgBufs].
    + apply IH; [|intros u' Hu'; apply Huniq, elem_of_app; by left|done].
      apply elem_of_app in Hin as [Hin|Hin]; [done|].
      apply list_elem_of_singleton in Hin. discriminate.
    + destruct (decide (j = i)) as [->|Hne].
      * rewrite (Huniq u'') by (apply elem_of_app; right; by apply list_elem_of_singleton).
        apply list_lookup_insert_eq. by rewrite length_imgBufs_foldl.
      * rewrite list_lookup_insert_ne by done.
        apply IH; [|intros u' Hu'; apply Huniq, elem_of_app; by left|done].
        apply elem_of_app in Hin as [Hin|Hin]; [done|].
        apply list_elem_of_singleton in Hin. congruence.
Qed.

Lemma foldl_audio_slot ts : forall st u,
  AudioTask u ∈ ts ->
  (forall u', AudioTask u' ∈ ts -> u' = u) ->
  audBuf (foldl (runTask httpGet) st ts) = fst (downloadToMem httpGet u).
Proof.
  induction ts as [|t ts IH] using rev_ind; intros st u Hin Huniq.
  - by apply elem_of_nil in Hin.
  - rewrite foldl_app. cbn [foldl].
    destruct t as [a|j u'']; cbn [runTask audBuf].
    + by rewrite (Huniq a) by (apply elem_of_app; right; by apply list_elem_of_singleton).
    + apply IH; [|intros u' Hu'; apply Huniq, elem_of_app; by left].
      apply elem_of_app in Hin as [Hin|Hin]; [done|].
      apply list_elem_of_singleton in Hin. discriminate.
Qed.

Lemma spawned_image imageURLs audioURL i u :
  ImageTask i u ∈ spawned imageURLs audioURL <-> imageURLs !! i = Some u.
Proof.
  unfold spawned. rewrite elem_of_cons, elem_of_lookup_imap. split.
  - intros [?|(j & y & [= -> ->] & Hj)]; [discriminate | done].
  - intros Hi. right. eauto.
Qed.

Lemma spawned_audio imageURLs audioURL u :
  AudioTask u ∈ spawned imageURLs audioURL <-> u = audioURL.
Proof.
  unfold spawned. rewrite elem_of_cons, elem_of_lookup_imap. split.
  - intros [[= ->]|(j & y & ? & Hj)]; [done | discriminate].
  - intros ->. by left.
Qed.

Lemma fetchAll_barrier order imageURLs audioURL :
  order ≡ₚ spawned imageURLs audioURL ->
  fetchAll httpGet order (length imageURLs) =
    Fetched (fst (downloadToMem httpGet audioURL))
            (map (fun u => fst (downloadToMem httpGet u)) imageURLs).
Proof.
  intros Hperm. unfold fetchAll.
  set (st := foldl _ _ _).
  assert (Haud : audBuf st = fst (downloadToMem httpGet audioURL)).
  { apply foldl_audio_slot.
    - rewrite Hperm. by apply spawned_audio.
    - intros u' Hu'. rewrite Hperm in Hu'. by apply spawned_audio in Hu'. }
  assert (Himg : imgBufs st = map (fun u => fst (downloadToMem httpGet u)) imageURLs).
  { apply list_eq. intros i. rewrite list_lookup_fmap.
    destruct (imageURLs !! i) as [u|] eqn:Hi; cbn.
    - apply foldl_image_slot.
      + rewrite Hperm. by apply spawned_image.
      + intros u' Hu'. rewrite Hperm in Hu'. apply spawned_image in Hu'. congruence.
      + cbn. rewrite length_replicate. by apply lookup_lt_Some in Hi.
    - apply lookup_ge_None. subst st. rewrite length_imgBufs_foldl. cbn.
      rewrite length_replicate. by apply lookup_ge_None. }
  destruct st. cbn in *. by subst.
Qed.

End Fetch.

(** ** Goroutines side by side *)

Lemma omap_concat_one {B} (f : event -> option B) ths : forall t,
  (forall t' evs, t' <> t -> ths !! t' = Some evs -> omap f evs = []) ->
  omap f (concat ths) = omap f (default [] (ths !! t)).
Proof.
  induction ths as [|x ths IH]; intros t Hoth; [done|].
  cbn [concat]. rewrite omap_app. destruct t as [|t]; cbn.
  - rewrite (IH (length ths)).
    + rewrite (lookup_ge_None_2 ths (length ths)) by lia. cbn. by rewrite app_nil_r.
    + intros t' evs _ Ht'. by apply (Hoth (S t') evs).
  - rewrite (Hoth 0%nat x) by done. cbn. apply IH.
    intros t' evs Hne Ht'. apply (Hoth (S t') evs); [lia | done].
Qed.

Lemma omap_cons_match {A B} (f : A -> option B) x l :
  omap f (x :: l) = match f x with Some y => y :: omap f l | None => omap f l end.
Proof. reflexivity. Qed.

(** What one goroutine does is seen in its own order in every interleaving:
    a projection that is empty on all goroutines but one yields, on the
    interleaved trace, what it yields on that goroutine. *)
Lemma runThreads_project {B} (f : event -> option B) sched : forall ths t,
  (forall t' evs, t' <> t -> ths !! t' = Some evs -> omap f evs = []) ->
  omap f (runThreads sched ths) = omap f (default [] (ths !! t)).
Proof.
  induction sched as [|t0 sched IH]; intros ths t Hoth; cbn [runThreads].
  - by apply omap_concat_one.
  - destruct (ths !! t0) as [[|e rest]|] eqn:Ht0; [by apply IH | | by apply IH].
    rewrite omap_cons_match, (IH (<[t0 := rest]> ths) t).
    + destruct (decide (t0 = t)) as [->|Hne].
      * rewrite Ht0, list_lookup_insert_eq by (by eapply lookup_lt_Some). done.
      * rewrite list_lookup_insert_ne by done.
        specialize (Hoth t0 _ Hne Ht0). rewrite omap_cons_match in Hoth.
        destruct (f e); [discriminate | done].
    + intros t' evs Hne Ht'.
      destruct (decide (t0 = t')) as [->|Hne'].
      * rewrite list_lookup_insert_eq in Ht' by (by eapply lookup_lt_Some).
        injection Ht' as <-. specialize (Hoth t' _ Hne Ht0).
        rewrite omap_cons_match in Hoth.
        destruct (f e); [discriminate | done].
      * rewrite list_lookup_insert_ne in Ht' by done. by apply (Hoth t' evs).
Qed.

Lemma imgWrites_onPipe_img enc bufs : forall i,
  omap (onPipe ImgWriter) (imgWrites enc i bufs) = imgWrites enc i bufs.
Proof.
  induction bufs as [|[b|] bufs IH]; intros i; cbn; [done| |]; by rewrite IH.
Qed.


Lemma imgWrites_writtenTo_img enc bufs : forall i,
  omap (writtenTo ImgWriter) (imgWrites enc i bufs) = omap id bufs.
Proof.
  induction bufs as [|[b|] bufs IH]; intros i; cbn; [done| |]; by rewrite IH.
Qed.


(** ** The compositor *)

Section Composition.

Variable httpGet : string -> httpResult.

Lemma omap_id_fmap {A B} (f : A -> option B) l : omap id (map f l) = omap f l.
Proof. induction l as [|x l IH]; cbn; [done|]. rewrite IH. by destruct (f x). Qed.

(** The trace of a run that reaches the encoder. *)
Lemma makeVideo_started enc order sched imageURLs audioURL duration aud :
  audBuf (fetchAll httpGet order (length imageURLs)) = Some aud ->
  startErr enc = None ->
  snd (makeVideo httpGet enc order sched imageURLs audioURL duration) =
    EvStart (PrimFloat.div (float64 (Z.of_nat (length imageURLs)))
                           (float64 (defaultDuration duration))) ::
    runThreads sched
      [[EvWait];
       imgWriterRoutine enc (imgBufs (fetchAll httpGet order (length imageURLs)));
       audWriterRoutine enc aud].
Proof.
  intros Haud Hstart. unfold makeVideo. rewrite Haud, Hstart.
  by destruct (waitErr enc).
Qed.

(** The three shapes a trace of [makeVideo] can have. *)
Lemma makeVideo_trace_cases enc order sched imageURLs audioURL duration :
  let tr := snd (makeVideo httpGet enc order sched imageURLs audioURL duration) in
  tr = [] \/ tr = [EvStartFailed] \/
  exists aud, audBuf (fetchAll httpGet order (length imageURLs)) = Some aud /\
              startErr enc = None.
Proof.
  cbn zeta. unfold makeVideo.
  destruct (audBuf _) as [aud|]; [|by left].
  destruct (startErr enc); [by right; left|]. right. right. eauto.
Qed.

Lemma writers_project_img enc sched bufs aud :
  omap (onPipe ImgWriter)
    (runThreads sched [[EvWait]; imgWriterRoutine enc bufs; audWriterRoutine enc aud])
  = imgWriterRoutine enc bufs.
Proof.
  rewrite (runThreads_project _ sched _ 1%nat).
  - change (default [] (_ !! 1%nat)) with (imgWriterRoutine enc bufs).
    unfold imgWriterRoutine. rewrite omap_app, imgWrites_onPipe_img. done.
  - intros [|[|[|t']]] evs Hne Ht'; try done; by injection Ht' as <-.
Qed.


Lemma writers_written_img enc sched bufs aud :
  omap (writtenTo ImgWriter)
    (runThreads sched [[EvWait]; imgWriterRoutine enc bufs; audWriterRoutine enc aud])
  = omap id bufs.
Proof.
  rewrite (runThreads_project _ sched _ 1%nat).
  - change (default [] (_ !! 1%nat)) with (imgWriterRoutine enc bufs).
    unfold imgWriterRoutine. rewrite omap_app, imgWrites_writtenTo_img. cbn.
    by rewrite app_nil_r.
  - intros [|[|[|t']]] evs Hne Ht'; try done; by injection Ht' as <-.
Qed.

(** C4: when the audio request fails, which is exactly when the audio
    buffer is nil after the barrier, [makeVideo] returns the error
    "failed to download audio" and no bytes, and its trace is empty: the
    encoder is neither started nor attempted, and nothing is written,
    whatever the image downloads gave. *)
Theorem audio_mandatory enc order sched imageURLs audioURL duration :
  order ≡ₚ spawned imageURLs audioURL ->
  (audBuf (fetchAll httpGet order (length imageURLs)) = None <->
   httpGet audioURL = GetFails) /\
  (audBuf (fetchAll httpGet order (length imageURLs)) = None ->
   makeVideo httpGet enc order sched imageURLs audioURL duration =
     ((None, Some "failed to download audio"), [])).
Proof.
  intros Hperm. split.
  - rewrite (fetchAll_barrier httpGet order imageURLs audioURL Hperm). cbn.
    unfold downloadToMem. destruct (httpGet audioURL); cbn; split; done.
  - intros Hnil. unfold makeVideo. by rewrite Hnil.
Qed.


(** C5: whatever the order in which the download goroutines finish, after
    the barrier slot [i] holds the download of [imageURLs[i]]; and in every
    interleaving of the writers the buffers written to the image pipe are
    the non-nil slots in index order, nil slots being passed over. *)
Theorem order_preserved enc order sched imageURLs audioURL duration :
  order ≡ₚ spawned imageURLs audioURL ->
  let st := fetchAll httpGet order (length imageURLs) in
  length (imgBufs st) = length imageURLs /\
  (forall (i : nat) u, imageURLs !! i = Some u ->
     imgBufs st !! i = Some (fst (downloadToMem httpGet u))) /\
  (forall aud, audBuf st = Some aud -> startErr enc = None ->
     omap (writtenTo ImgWriter)
          (snd (makeVideo httpGet enc order sched imageURLs audioURL duration))
     = omap (fun u => fst (downloadToMem httpGet u)) imageURLs).
Proof.
  intros Hperm st.
  assert (Hst : st = Fetched (fst (downloadToMem httpGet audioURL))
                       (map (fun u => fst (downloadToMem httpGet u)) imageURLs))
    by (by apply fetchAll_barrier).
  split; [|split].
  - rewrite Hst. cbn. apply length_map.
  - intros i u Hi. rewrite Hst. cbn. rewrite list_lookup_fmap, Hi. done.
  - intros aud Haud Hstart.
    rewrite (makeVideo_started enc order sched imageURLs audioURL duration aud) by done.
    rewrite omap_cons_match. cbn [writtenTo]. rewrite writers_written_img.
    fold st. rewrite Hst. cbn [imgBufs]. apply omap_id_fmap.
Qed.

(** C7: the encoder is started with the frame rate [len(imageURLs)]
    divided by the duration, a duration of zero or less being replaced by
    10; for five images the rate is 0.5 both for duration 10 and for
    duration 0. *)
Theorem frame_rate enc order sched imageURLs audioURL duration aud :
  audBuf (fetchAll httpGet order (length imageURLs)) = Some aud ->
  startErr enc = None ->
  let started d := snd (makeVideo httpGet enc order sched imageURLs audioURL d) !! 0%nat in
  started duration =
    Some (EvStart (PrimFloat.div (float64 (Z.of_nat (length imageURLs)))
                                 (float64 (if duration <=? 0 then 10 else duration)))) /\
  (duration <= 0 ->
     makeVideo httpGet enc order sched imageURLs audioURL duration =
     makeVideo httpGet enc order sched imageURLs audioURL 10) /\
  (length imageURLs = 5%nat ->
     started 10 = Some (EvStart 0.5%float) /\ started 0 = Some (EvStart 0.5%float)).
Proof.
  intros Haud Hstart started. subst started. cbn beta.
  split; [|split].
  - by rewrite (makeVideo_started enc order sched imageURLs audioURL duration aud).
  - intros Hle. unfold makeVideo, defaultDuration.
    destruct (Z.leb_spec duration 0) as [_|Hgt]; [done | lia].
  - intros H5.
    rewrite !(makeVideo_started enc order sched imageURLs audioURL _ aud) by done.
    rewrite H5. split; reflexivity.
Qed.


End Composition.

Lemma audio_mandatory_witness :
  makeVideo exNet exEncoder [ImageTask 0 "a"; AudioTask "zz"] [1; 2]%nat ["a"] "zz" 5
  = ((None, Some "failed to download audio"), []).
Proof.
  destruct (audio_mandatory exNet exEncoder [ImageTask 0 "a"; AudioTask "zz"] [1; 2]%nat
              ["a"] "zz" 5) as [Hiff Herr].
  - apply perm_swap.
  - apply Herr, Hiff. reflexivity.
Defined.

Lemma order_preserved_witness :
  imgBufs (fetchAll exNet [ImageTask 2 "c"; AudioTask "m"; ImageTask 0 "a"; ImageTask 1 "b"] 3)
    = [Some [Byte.x01]; None; Some [Byte.x03; Byte.x04]] /\
  omap (writtenTo ImgWriter)
    (snd (makeVideo exNet exEncoder
            [ImageTask 2 "c"; AudioTask "m"; ImageTask 0 "a"; ImageTask 1 "b"] [2; 1; 0; 1]%nat
            ["a"; "b"; "c"] "m" 0))
    = [[Byte.x01]; [Byte.x03; Byte.x04]].
Proof.
  destruct (order_preserved exNet exEncoder
              [ImageTask 2 "c"; AudioTask "m"; ImageTask 0 "a"; ImageTask 1 "b"]
              [2; 1; 0; 1]%nat ["a"; "b"; "c"] "m" 0) as (_ & Hslots & Hwrites).
  - apply (Permutation_cons_append [AudioTask "m"; ImageTask 0 "a"; ImageTask 1 "b"]).
  - split.
    + apply list_eq. intros [|[|[|i]]].
      * exact (Hslots 0%nat "a" eq_refl).
      * exact (Hslots 1%nat "b" eq_refl).
      * exact (Hslots 2%nat "c" eq_refl).
      * reflexivity.
    + exact (Hwrites [Byte.x09] eq_refl eq_refl).
Defined.


Lemma frame_rate_witness :
  snd (makeVideo exNet exEncoder (spawned ["a"; "b"; "c"; "d"; "e"] "m") []
         ["a"; "b"; "c"; "d"; "e"] "m" 10) !! 0%nat = Some (EvStart 0.5%float) /\
  snd (makeVideo exNet exEncoder (spawned ["a"; "b"; "c"; "d"; "e"] "m") []
         ["a"; "b"; "c"; "d"; "e"] "m" 0) !! 0%nat = Some (EvStart 0.5%float).
Proof.
  destruct (frame_rate exNet exEncoder (spawned ["a"; "b"; "c"; "d"; "e"] "m") []
              ["a"; "b"; "c"; "d"; "e"] "m" 0 [Byte.x09] eq_refl eq_refl) as (_ & _ & H5).
  exact (H5 eq_refl).
Defined.

(** * Further properties *)

(** ** The cache under arbitrary histories *)

Lemma guardedFrom_app h a : forall b,
  guardedFrom h a = true -> guardedFrom h (a ++ b) = guardedFrom false b.
Proof.
  revert h. induction a as [|e a IH]; intros h b Ha.
  - cbn in Ha. apply negb_true_iff in Ha as ->. reflexivity.
  - cbn [guardedFrom app] in *.
    destruct e, h; cbn [negb andb] in *; try discriminate; by apply IH.
Qed.

Lemma runOp_guarded o w :
  mu w = false ->
  exists w' evs, runOp o w = Some (tt, w') /\ mu w' = false /\
                 trace w' = trace w ++ evs /\ guardedFrom false evs = true.
Proof.
  intros Hmu. destruct o as [token now|u rnd nanos now]; cbn [runOp];
    unfold mbind, M_bind.
  - rewrite get_run by done.
    destruct (items w !! token) as [item|]; [destruct (After now (expires item))|];
      do 2 eexists; (split; [reflexivity|]); cbn; (split; [done|]); split; done.
  - rewrite set_run by done.
    do 2 eexists. split; [reflexivity|]. cbn. split; [done|]. split; done.
Qed.

(** X1: when [get] reports a resource as found, the map held an entry for
    the token with that resource, the clock had not passed its expiry, and
    the map is left as it was: an expired entry is never served. *)
Theorem get_found_is_live w T now u w' :
  mu w = false ->
  get T now w = Some ((u, true), w') ->
  exists item, items w !! T = Some item /\ url item = u /\ now <= expires item /\
               items w' = items w.
Proof.
  intros Hmu Hget. rewrite get_run in Hget by done.
  destruct (items w !! T) as [item|]; [|discriminate].
  unfold After in Hget. destruct (Z.ltb_spec (expires item) now) as [Hlt|Hle]; [discriminate|].
  injection Hget as <- <-. exists item. cbn. auto.
Qed.

Lemma get_found_is_live_witness :
  exists item, items exWorld !! "new" = Some item /\
               url item = "https://www.tiktok.com/b" /\ 500 <= expires item.
Proof.
  destruct (get_found_is_live exWorld "new" 500 "https://www.tiktok.com/b"
              (World false (items exWorld) [EvLock; EvMapRead "new"; EvUnlock]) eq_refl)
    as (item & H1 & H2 & H3 & _).
  - vm_compute. reflexivity.
  - exists item. auto.
Defined.

(** X2: from a free mutex every history of [set] and [get] calls runs to
    its end and leaves the mutex free; in the events it adds, locks and
    unlocks alternate and every access to the map lies between a lock and
    the next unlock. *)
Theorem calls_keep_lock_discipline ops : forall w,
  mu w = false ->
  exists w' evs, runOps ops w = Some (tt, w') /\ mu w' = false /\
                 trace w' = trace w ++ evs /\ guardedFrom false evs = true.
Proof.
  induction ops as [|o ops IH]; intros w Hmu.
  - exists w, []. cbn. by rewrite app_nil_r.
  - destruct (runOp_guarded o w Hmu) as (w1 & evs1 & Hrun1 & Hmu1 & Htr1 & Hg1).
    destruct (IH w1 Hmu1) as (w2 & evs2 & Hrun2 & Hmu2 & Htr2 & Hg2).
    exists w2, (evs1 ++ evs2). cbn [runOps]. unfold mbind, M_bind at 1. rewrite Hrun1.
    split; [exact Hrun2|]. split; [done|]. split.
    + by rewrite Htr2, Htr1, app_assoc.
    + by rewrite guardedFrom_app.
Qed.

Lemma calls_keep_lock_discipline_witness :
  exists w' evs,
    runOps [OpSet "https://vm.tiktok.com/a" RandFails 7 0; OpGet "7" 5; OpGet "8" 5]
      newLinkCache = Some (tt, w') /\ mu w' = false /\
    trace w' = evs /\ guardedFrom false evs = true.
Proof.
  destruct (calls_keep_lock_discipline
              [OpSet "https://vm.tiktok.com/a" RandFails 7 0; OpGet "7" 5; OpGet "8" 5]
              newLinkCache eq_refl) as (w' & evs & H1 & H2 & H3 & H4).
  exists w', evs. auto.
Defined.

(** X3: when a second [set] mints the token of an earlier one, the earlier
    entry is overwritten: a later [get] of the token, made before the
    second entry expires, yields the second resource, and the first
    resource can no longer be reached. *)
Theorem set_collision_overwrites w u1 u2 rnd1 rnd2 nanos1 nanos2 t1 t2 t :
  mu w = false ->
  randomToken 12 rnd1 nanos1 = randomToken 12 rnd2 nanos2 ->
  t <= t2 + cacheTTL ->
  exists w',
    (tok1 ← set u1 rnd1 nanos1 t1;
     tok2 ← set u2 rnd2 nanos2 t2;
     r ← get tok1 t;
     mret (tok1, tok2, r)) w
    = Some ((randomToken 12 rnd1 nanos1, randomToken 12 rnd1 nanos1, (u2, true)), w') /\
    forall k item, items w' !! k = Some item -> items w !! k = None -> url item = u2.
Proof.
  intros Hmu Htok Ht.
  unfold mbind at 1, M_bind at 1. rewrite set_run by done.
  unfold mbind at 1, M_bind at 1. rewrite set_run by done. rewrite <- Htok.
  unfold mbind at 1, M_bind at 1. rewrite get_run by done. cbn [items].
  rewrite lookup_insert_eq. cbn [expires url]. unfold After.
  destruct (Z.ltb_spec (t2 + cacheTTL) t) as [Hlt|_]; [lia|].
  eexists. split; [reflexivity|]. cbn [items].
  intros k item Hk Hnone. rewrite insert_insert_eq in Hk.
  destruct (decide (randomToken 12 rnd1 nanos1 = k)) as [<-|Hne].
  - rewrite lookup_insert_eq in Hk. by injection Hk as <-.
  - rewrite lookup_insert_ne in Hk by done. congruence.
Qed.

Lemma set_collision_overwrites_witness :
  exists w',
    (tok1 ← set "https://vm.tiktok.com/first/" RandFails 99 10;
     tok2 ← set "https://vm.tiktok.com/second/" RandFails 99 20;
     r ← get tok1 30;
     mret (tok1, tok2, r)) newLinkCache
    = Some (("99", "99", ("https://vm.tiktok.com/second/", true)), w').
Proof.
  destruct (set_collision_overwrites newLinkCache "https://vm.tiktok.com/first/"
              "https://vm.tiktok.com/second/" RandFails RandFails 99 99 10 20 30 eq_refl eq_refl)
    as (w' & H & _).
  - unfold cacheTTL, Minute. lia.
  - exists w'. exact H.
Defined.

Lemma runOp_untouched T o w :
  mu w = false -> ¬ touches T o ->
  exists w', runOp o w = Some (tt, w') /\ mu w' = false /\ items w' !! T = items w !! T.
Proof.
  intros Hmu Ht. destruct o as [token now|u rnd nanos now]; cbn [runOp touches] in *;
    unfold mbind, M_bind.
  - rewrite get_run by done.
    destruct (items w !! token) as [item|]; [destruct (After now (expires item))|];
      eexists; (split; [reflexivity|]); cbn; (split; [done|]); [|done..].
    by apply lookup_delete_ne.
  - rewrite set_run by done. eexists. split; [reflexivity|]. cbn. split; [done|].
    by apply lookup_insert_ne.
Qed.

(** X4: an entry changes only through a [get] of its token or a [set] that
    mints its token: whatever other calls are made, and however late, the
    entry of token [T] stays exactly as it was, expired or not (nothing
    sweeps the map). *)
Theorem untouched_entry_stays T ops : forall w,
  mu w = false ->
  Forall (fun o => ¬ touches T o) ops ->
  exists w', runOps ops w = Some (tt, w') /\ items w' !! T = items w !! T.
Proof.
  induction ops as [|o ops IH]; intros w Hmu Hall.
  - exists w. by cbn.
  - apply Forall_cons in Hall as [Ho Hall].
    destruct (runOp_untouched T o w Hmu Ho) as (w1 & Hrun1 & Hmu1 & Hk1).
    destruct (IH w1 Hmu1 Hall) as (w2 & Hrun2 & Hk2).
    exists w2. cbn [runOps]. unfold mbind, M_bind at 1. rewrite Hrun1.
    split; [exact Hrun2 | congruence].
Qed.

Lemma untouched_entry_stays_witness :
  exists w',
    runOps [OpGet "new" (1000 * cacheTTL); OpSet "https://vm.tiktok.com/a" RandFails 7 0]
      exWorld = Some (tt, w') /\
    items w' !! "old" = Some (CacheItem "https://www.tiktok.com/a" 100).
Proof.
  destruct (untouched_entry_stays "old"
              [OpGet "new" (1000 * cacheTTL); OpSet "https://vm.tiktok.com/a" RandFails 7 0]
              exWorld eq_refl) as (w' & H1 & H2).
  - repeat constructor; cbn; intros H; vm_compute in H; discriminate.
  - exists w'. split; [exact H1|]. rewrite H2. vm_compute. reflexivity.
Defined.

(** ** The text of tokens *)

Lemma encodeChar_urlSafe i : (i < 64)%N -> urlSafe (encodeChar i) = true.
Proof.
  intros Hi. rewrite <- (N2Nat.id i).
  assert (Hn : (N.to_nat i < 64)%nat) by lia.
  revert Hn. generalize (N.to_nat i). intros n Hn.
  do 64 (destruct n as [|n]; [vm_compute; reflexivity|]). lia.
Qed.

Lemma sextet_urlSafe val shift : urlSafe (sextet val shift) = true.
Proof.
  unfold sextet. apply encodeChar_urlSafe.
  change 0x3F%N with (N.ones 6). rewrite N.land_ones. by apply N.mod_lt.
Qed.

(** The length of the base64 text without padding, and its alphabet. *)
Lemma EncodeToString_shape n : forall src,
  (length src <= n)%nat ->
  String.length (EncodeToString src) = ((4 * length src + 2) / 3)%nat /\
  allChars urlSafe (EncodeToString src) = true.
Proof.
  induction n as [|n IH]; intros [|b0 [|b1 [|b2 rest]]] Hlen; cbn [length] in Hlen; try lia;
    cbn [EncodeToString allChars String.length length]; rewrite ?sextet_urlSafe;
    try (split; reflexivity).
  destruct (IH rest) as [Hl Ha]; [lia|]. rewrite Hl, Ha. split; [|reflexivity].
  replace (4 * S (S (S (length rest))) + 2)%nat with (4 * 3 + (4 * length rest + 2))%nat by lia.
  replace (4 * 3)%nat with (4 * 3)%nat by lia.
  rewrite (Nat.div_add_l 4 3) by lia. lia.
Qed.

Lemma string_of_uint_urlSafe d : allChars urlSafe (NilEmpty.string_of_uint d) = true.
Proof. induction d; cbn [NilEmpty.string_of_uint allChars]; rewrite ?IHd; done. Qed.

Lemma formatInt_urlSafe z : allChars urlSafe (formatInt z) = true.
Proof.
  assert (H : forall d, allChars urlSafe (NilZero.string_of_uint d) = true).
  { intros d. unfold NilZero.string_of_uint.
    destruct d; try done; apply string_of_uint_urlSafe. }
  unfold formatInt, NilZero.string_of_int.
  destruct (Z.to_int z) as [d|d]; cbn [allChars]; rewrite ?H; done.
Qed.

(** X5: a token drawn from the random source has [(4 size + 2) / 3]
    characters, sixteen for the twelve bytes [set] asks for, and every
    token, from the random source or from the clock, is made of letters,
    digits, '-' and '_' only. *)
Theorem token_shape size rnd nanos :
  allChars urlSafe (randomToken size rnd nanos) = true /\
  (forall gen, rnd = RandFills gen ->
     String.length (randomToken size rnd nanos) = ((4 * size + 2) / 3)%nat) /\
  (forall gen, String.length (randomToken 12 (RandFills gen) nanos) = 16%nat).
Proof.
  assert (Hlen : forall n gen, String.length (randomToken n (RandFills gen) nanos)
                               = ((4 * n + 2) / 3)%nat).
  { intros n gen. unfold randomToken, randRead.
    destruct (EncodeToString_shape (length (map gen (seq 0 n))) (map gen (seq 0 n)))
      as [-> _]; [lia|]. by rewrite length_map, length_seq. }
  split; [|split].
  - unfold randomToken. destruct (randRead rnd size) as [buf|].
    + by apply (EncodeToString_shape (length buf)).
    + apply formatInt_urlSafe.
  - intros gen ->. apply Hlen.
  - intros gen. apply Hlen.
Qed.

Lemma formatInt_inj z1 z2 : formatInt z1 = formatInt z2 -> z1 = z2.
Proof.
  unfold formatInt. intros H. apply DecimalZ.to_int_inj.
  assert (Hnn : forall z, Z.to_int z <> Decimal.Pos Decimal.Nil /\
                          Z.to_int z <> Decimal.Neg Decimal.Nil).
  { intros [|p|p]; cbn; split; try discriminate; intros [= Hp];
      by apply (DecimalPos.Unsigned.to_uint_nonnil p). }
  assert (Hsome : forall z, NilZero.int_of_string (NilZero.string_of_int (Z.to_int z))
                            = Some (Z.to_int z)).
  { intros z. apply NilZero.isi; apply Hnn. }
  pose proof (Hsome z1) as H1. rewrite H, Hsome in H1. by injection H1.
Qed.

(** X6: on the fallback path two tokens coincide exactly when the two
    clock readings coincide: the text determines the reading, and the same
    nanosecond gives the same token. *)
Theorem fallback_tokens_follow_clock size1 size2 nanos1 nanos2 :
  randomToken size1 RandFails nanos1 = randomToken size2 RandFails nanos2 <-> nanos1 = nanos2.
Proof.
  unfold randomToken. cbn. split; [apply formatInt_inj | by intros ->].
Qed.

(** *** The random bytes can be read back from the token *)

Lemma shiftr_small n k : (n < 256)%N -> (8 <= k)%N -> N.shiftr n k = 0%N.
Proof.
  intros Hn Hk. rewrite N.shiftr_div_pow2. apply N.div_small.
  eapply N.lt_le_trans; [exact Hn|]. change 256%N with (2 ^ 8)%N.
  by apply N.pow_le_mono_r.
Qed.

Lemma land_shiftl_63 n k : (6 <= k)%N -> N.land (N.shiftl n k) 63 = 0%N.
Proof.
  intros Hk. apply N.bits_inj_0. intros i. rewrite N.land_spec.
  destruct (N.lt_ge_cases i 6) as [Hi|Hi].
  - rewrite N.shiftl_spec_low by lia. reflexivity.
  - change 63%N with (N.ones 6). rewrite N.ones_spec_high by done. apply andb_false_r.
Qed.

(** The four sextets of three bytes, each in terms of the one or two bytes
    it is cut from. *)
Lemma sextets_of_bytes n0 n1 n2 :
  (n0 < 256)%N -> (n1 < 256)%N -> (n2 < 256)%N ->
  let val := N.lor (N.lor (N.shiftl n0 16) (N.shiftl n1 8)) n2 in
  N.land (N.shiftr val 18) 63 = N.land (N.shiftr n0 2) 63 /\
  N.land (N.shiftr val 12) 63 = N.land (N.lor (N.shiftl n0 4) (N.shiftr n1 4)) 63 /\
  N.land (N.shiftr val 6) 63 = N.land (N.lor (N.shiftl n1 2) (N.shiftr n2 6)) 63 /\
  N.land (N.shiftr val 0) 63 = N.land n2 63.
Proof.
  intros H0 H1 H2 val. subst val. rewrite !N.shiftr_lor.
  rewrite (N.shiftr_shiftl_r n0 16 18), (N.shiftr_shiftl_r n1 8 18) by lia.
  rewrite (N.shiftr_shiftl_l n0 16 12), (N.shiftr_shiftl_r n1 8 12) by lia.
  rewrite (N.shiftr_shiftl_l n0 16 6), (N.shiftr_shiftl_l n1 8 6) by lia.
  rewrite !N.shiftr_0_r.
  change (18 - 16)%N with 2%N. change (18 - 8)%N with 10%N.
  change (16 - 12)%N with 4%N. change (12 - 8)%N with 4%N.
  change (16 - 6)%N with 10%N. change (8 - 6)%N with 2%N.
  rewrite (shiftr_small n1 10), (shiftr_small n2 18), (shiftr_small n2 12) by lia.
  rewrite !N.lor_0_r.
  split; [reflexivity|]. split; [reflexivity|]. split.
  - rewrite !N.land_lor_distr_l, land_shiftl_63 by lia. by rewrite N.lor_0_l.
  - rewrite !N.land_lor_distr_l, !land_shiftl_63 by lia. by rewrite !N.lor_0_l.
Qed.

(** All numbers below 256, for checks by enumeration. *)
Lemma below_256 (P : N -> N -> bool) :
  forallb (fun a => forallb (fun b => P (N.of_nat a) (N.of_nat b)) (seq 0 256)) (seq 0 256) = true ->
  forall a b, (a < 256)%N -> (b < 256)%N -> P a b = true.
Proof.
  intros Hall a b Ha Hb. rewrite forallb_forall in Hall.
  specialize (Hall (N.to_nat a)). rewrite forallb_forall in Hall.
  specialize (Hall ltac:(apply in_seq; lia) (N.to_nat b) ltac:(apply in_seq; lia)).
  by rewrite !N2Nat.id in Hall.
Qed.

Lemma first_byte_back a b : (a < 256)%N -> (b < 256)%N ->
  N.lor (N.shiftl (N.land (N.shiftr a 2) 63) 2)
        (N.shiftr (N.land (N.lor (N.shiftl a 4) (N.shiftr b 4)) 63) 4) = a.
Proof.
  intros Ha Hb. apply N.eqb_eq.
  apply (below_256 (fun a b =>
    (N.lor (N.shiftl (N.land (N.shiftr a 2) 63) 2)
           (N.shiftr (N.land (N.lor (N.shiftl a 4) (N.shiftr b 4)) 63) 4) =? a)%N)); [|done..].
  vm_compute. reflexivity.
Qed.

Lemma second_byte_high a b : (a < 256)%N -> (b < 256)%N ->
  N.land (N.shiftl (N.land (N.lor (N.shiftl a 4) (N.shiftr b 4)) 63) 4) 255 = N.land b 240.
Proof.
  intros Ha Hb. apply N.eqb_eq.
  apply (below_256 (fun a b =>
    (N.land (N.shiftl (N.land (N.lor (N.shiftl a 4) (N.shiftr b 4)) 63) 4) 255
     =? N.land b 240)%N)); [|done..].
  vm_compute. reflexivity.
Qed.

Lemma second_byte_low b c : (b < 256)%N -> (c < 256)%N ->
  N.shiftr (N.land (N.lor (N.shiftl b 2) (N.shiftr c 6)) 63) 2 = N.land b 15.
Proof.
  intros Hb Hc. apply N.eqb_eq.
  apply (below_256 (fun b c =>
    (N.shiftr (N.land (N.lor (N.shiftl b 2) (N.shiftr c 6)) 63) 2 =? N.land b 15)%N));
    [|done..].
  vm_compute. reflexivity.
Qed.

Lemma third_byte_high b c : (b < 256)%N -> (c < 256)%N ->
  N.land (N.shiftl (N.land (N.lor (N.shiftl b 2) (N.shiftr c 6)) 63) 6) 255 = N.land c 192.
Proof.
  intros Hb Hc. apply N.eqb_eq.
  apply (below_256 (fun b c =>
    (N.land (N.shiftl (N.land (N.lor (N.shiftl b 2) (N.shiftr c 6)) 63) 6) 255
     =? N.land c 192)%N)); [|done..].
  vm_compute. reflexivity.
Qed.

Lemma byte_halves b c : (b < 256)%N -> (c < 256)%N ->
  N.lor (N.land b 240) (N.land b 15) = b /\ N.lor (N.land c 192) (N.land c 63) = c.
Proof.
  intros Hb Hc.
  assert (H : (N.lor (N.land b 240) (N.land b 15) =? b)%N &&
              (N.lor (N.land c 192) (N.land c 63) =? c)%N = true).
  { apply (below_256 (fun b c =>
      (N.lor (N.land b 240) (N.land b 15) =? b)%N &&
      (N.lor (N.land c 192) (N.land c 63) =? c)%N)); [|done..].
    vm_compute. reflexivity. }
  apply andb_true_iff in H as [H1%N.eqb_eq H2%N.eqb_eq]. done.
Qed.

Lemma encodeChar_inj i j : (i < 64)%N -> (j < 64)%N -> encodeChar i = encodeChar j -> i = j.
Proof.
  intros Hi Hj Heq.
  assert (H : implb ((i <? 64)%N && (j <? 64)%N && Ascii.eqb (encodeChar i) (encodeChar j))
                    (i =? j)%N = true).
  { apply (below_256 (fun i j =>
      implb ((i <? 64)%N && (j <? 64)%N && Ascii.eqb (encodeChar i) (encodeChar j))
            (i =? j)%N)); [|lia..].
    vm_compute. reflexivity. }
  rewrite Heq, Ascii.eqb_refl in H.
  destruct (N.ltb_spec i 64), (N.ltb_spec j 64); try lia. by apply N.eqb_eq.
Qed.

Lemma sextet_inj v w shift :
  sextet v shift = sextet w shift ->
  N.land (N.shiftr v shift) 63 = N.land (N.shiftr w shift) 63.
Proof.
  unfold sextet. apply encodeChar_inj;
    change 63%N with (N.ones 6); rewrite N.land_ones; by apply N.mod_lt.
Qed.

Lemma byte_to_N_lt b : (Byte.to_N b < 256)%N.
Proof. pose proof (Byte.to_N_bounded b). lia. Qed.

Lemma byte_to_N_inj b c : Byte.to_N b = Byte.to_N c -> b = c.
Proof.
  intros H. pose proof (Byte.of_to_N b) as Hb. rewrite H, Byte.of_to_N in Hb.
  by injection Hb.
Qed.

(** Three bytes are determined by the four characters they are encoded
    to. *)
Lemma triple_inj b0 b1 b2 c0 c1 c2 r r' :
  EncodeToString (b0 :: b1 :: b2 :: r) = EncodeToString (c0 :: c1 :: c2 :: r') ->
  b0 = c0 /\ b1 = c1 /\ b2 = c2 /\ EncodeToString r = EncodeToString r'.
Proof.
  cbn [EncodeToString]. intros [= H0 H1 H2 H3 Hr].
  apply sextet_inj in H0, H1, H2, H3.
  destruct (sextets_of_bytes (Byte.to_N b0) (Byte.to_N b1) (Byte.to_N b2))
    as (B0 & B1 & B2 & B3); try apply byte_to_N_lt.
  destruct (sextets_of_bytes (Byte.to_N c0) (Byte.to_N c1) (Byte.to_N c2))
    as (C0 & C1 & C2 & C3); try apply byte_to_N_lt.
  cbn zeta in *. rewrite B0, C0 in H0. rewrite B1, C1 in H1.
  rewrite B2, C2 in H2. rewrite B3, C3 in H3.
  assert (E0 : Byte.to_N b0 = Byte.to_N c0).
  { rewrite <- (first_byte_back (Byte.to_N b0) (Byte.to_N b1)) by apply byte_to_N_lt.
    rewrite <- (first_byte_back (Byte.to_N c0) (Byte.to_N c1)) by apply byte_to_N_lt.
    by rewrite H0, H1. }
  assert (E1 : Byte.to_N b1 = Byte.to_N c1).
  { destruct (byte_halves (Byte.to_N b1) (Byte.to_N b1)) as [<- _]; try apply byte_to_N_lt.
    destruct (byte_halves (Byte.to_N c1) (Byte.to_N c1)) as [<- _]; try apply byte_to_N_lt.
    rewrite <- (second_byte_high (Byte.to_N b0) (Byte.to_N b1)) by apply byte_to_N_lt.
    rewrite <- (second_byte_high (Byte.to_N c0) (Byte.to_N c1)) by apply byte_to_N_lt.
    rewrite <- (second_byte_low (Byte.to_N b1) (Byte.to_N b2)) by apply byte_to_N_lt.
    rewrite <- (second_byte_low (Byte.to_N c1) (Byte.to_N c2)) by apply byte_to_N_lt.
    by rewrite H1, H2. }
  assert (E2 : Byte.to_N b2 = Byte.to_N c2).
  { destruct (byte_halves (Byte.to_N b2) (Byte.to_N b2)) as [_ <-]; try apply byte_to_N_lt.
    destruct (byte_halves (Byte.to_N c2) (Byte.to_N c2)) as [_ <-]; try apply byte_to_N_lt.
    rewrite <- (third_byte_high (Byte.to_N b1) (Byte.to_N b2)) by apply byte_to_N_lt.
    rewrite <- (third_byte_high (Byte.to_N c1) (Byte.to_N c2)) by apply byte_to_N_lt.
    by rewrite H2, H3. }
  apply byte_to_N_inj in E0, E1, E2. auto.
Qed.

(** X7: two tokens drawn from the random source are equal only if the
    twelve random bytes are equal: the encoding loses none of them. *)
Theorem random_tokens_keep_every_byte gen1 gen2 nanos1 nanos2 :
  randomToken 12 (RandFills gen1) nanos1 = randomToken 12 (RandFills gen2) nanos2 ->
  forall i, (i < 12)%nat -> gen1 i = gen2 i.
Proof.
  unfold randomToken, randRead. cbn [seq map]. intros H.
  apply triple_inj in H as (E0 & E1 & E2 & H).
  apply triple_inj in H as (E3 & E4 & E5 & H).
  apply triple_inj in H as (E6 & E7 & E8 & H).
  apply triple_inj in H as (E9 & E10 & E11 & _).
  intros i Hi. do 12 (destruct i as [|i]; [assumption|]). lia.
Qed.

Lemma random_tokens_keep_every_byte_witness :
  Byte.x2a = (if (3 <? 12)%nat then Byte.x2a else Byte.x00).
Proof.
  refine (random_tokens_keep_every_byte (fun _ => Byte.x2a)
            (fun i => if (i <? 12)%nat then Byte.x2a else Byte.x00) 0 5 _ 3%nat _).
  - vm_compute. reflexivity.
  - lia.
Defined.

(** ** The link pattern *)

Lemma HasPrefix_split pre : forall s,
  HasPrefix s pre = true -> s = pre +:+ dropBytes (String.length pre) s.
Proof.
  induction pre as [|p pre IH]; intros s H; [done|].
  destruct s as [|c s]; [done|]. cbn [HasPrefix] in H.
  destruct (Ascii.eqb_spec c p) as [->|]; [|done].
  rewrite sapp_cons. cbn [String.length dropBytes]. f_equal. by apply IH.
Qed.

Lemma HasPrefix_sapp pre s : HasPrefix (pre +:+ s) pre = true.
Proof.
  induction pre as [|p pre IH]; [done|].
  rewrite sapp_cons. cbn [HasPrefix]. by rewrite Ascii.eqb_refl.
Qed.

Lemma stripPrefix_Some pre s r : stripPrefix pre s = Some r -> s = pre +:+ r.
Proof.
  unfold stripPrefix. destruct (HasPrefix s pre) eqn:H; [|done].
  intros [= <-]. by apply HasPrefix_split.
Qed.

Lemma stripPrefix_sapp pre s : stripPrefix pre (pre +:+ s) = Some s.
Proof.
  unfold stripPrefix. by rewrite HasPrefix_sapp, dropBytes_length_sapp.
Qed.

Lemma pathRun_split s : exists rest,
  s = pathRun s +:+ rest /\ allChars isPathChar (pathRun s) = true /\ pathRun rest = EmptyString.
Proof.
  induction s as [|c s (rest & Hs & Ha & Hr)].
  - by exists EmptyString.
  - cbn [pathRun]. destruct (isPathChar c) eqn:Hc.
    + exists rest. rewrite sapp_cons, <- Hs. cbn [allChars]. by rewrite Hc, Ha.
    + exists (String c s). cbn [pathRun]. by rewrite Hc.
Qed.

Lemma pathRun_sapp path rest :
  allChars isPathChar path = true -> pathRun (path +:+ rest) = path +:+ pathRun rest.
Proof.
  induction path as [|c path IH]; intros Ha; [done|].
  cbn [allChars] in Ha. apply andb_true_iff in Ha as [Hc Ha].
  rewrite !sapp_cons. cbn [pathRun]. by rewrite Hc, IH.
Qed.

Lemma matchHost_Some s host r :
  matchHost s = Some (host, r) ->
  (host = "vm" \/ host = "vt" \/ host = "www") /\ s = host +:+ r.
Proof.
  unfold matchHost.
  destruct (HasPrefix s "vm") eqn:H1; [intros [= <- <-]; split; [auto|by apply (HasPrefix_split "vm")]|].
  destruct (HasPrefix s "vt") eqn:H2; [intros [= <- <-]; split; [auto|by apply (HasPrefix_split "vt")]|].
  destruct (HasPrefix s "www") eqn:H3; [intros [= <- <-]; split; [auto|by apply (HasPrefix_split "www")]|].
  done.
Qed.

(** A match at the head of [s] is a link, a prefix of [s], and cannot be
    extended by one more path character. *)
Lemma matchHere_Some s m :
  matchHere s = Some m ->
  isLink m /\ exists post, s = m +:+ post /\ pathRun post = EmptyString.
Proof.
  unfold matchHere. intros H.
  destruct (stripPrefix "http" s) as [r0|] eqn:H0; cbn [mbind option_bind] in H; [|done].
  apply stripPrefix_Some in H0.
  set (scheme := if HasPrefix r0 "s" then "https" else "http") in *.
  destruct (stripPrefix "://" (if HasPrefix r0 "s" then dropBytes 1 r0 else r0))
    as [r1|] eqn:H1; cbn [mbind option_bind] in H; [|done].
  apply stripPrefix_Some in H1.
  destruct (matchHost r1) as [[host r2]|] eqn:H2; cbn [mbind option_bind fst snd] in H; [|done].
  apply matchHost_Some in H2 as [Hhost H2].
  destruct (stripPrefix ".tiktok.com/" r2) as [r3|] eqn:H3; cbn [mbind option_bind] in H;
    [|done].
  apply stripPrefix_Some in H3.
  destruct (pathRun_split r3) as (post & Hr3 & Hpath & Hpost).
  assert (Hs : s = scheme +:+ "://" +:+ host +:+ ".tiktok.com/" +:+ r3).
  { subst scheme r2 r1. rewrite H0. destruct (HasPrefix r0 "s") eqn:Hsch.
    - apply (HasPrefix_split "s") in Hsch. rewrite Hsch at 1. by rewrite <- H1.
    - by rewrite <- H1. }
  destruct (pathRun r3) as [|c path] eqn:Hrun; [done|]. injection H as <-.
  split.
  - exists scheme, host, (String c path). split; [|done].
    subst scheme. destruct (HasPrefix r0 "s"); auto.
  - exists post. split; [|done]. rewrite Hs, Hr3 at 1.
    by rewrite !sapp_assoc.
Qed.

Lemma matchHere_prefix scheme host t :
  scheme = "http" \/ scheme = "https" ->
  host = "vm" \/ host = "vt" \/ host = "www" ->
  matchHere (scheme +:+ "://" +:+ host +:+ ".tiktok.com/" +:+ t) =
    match pathRun t with
    | EmptyString => None
    | path => Some (scheme +:+ "://" +:+ host +:+ ".tiktok.com/" +:+ path)
    end.
Proof. intros [-> | ->] [-> | [-> | ->]]; reflexivity. Qed.

Lemma isLink_matchHere m post :
  isLink m -> matchHere (m +:+ post) = Some (m +:+ pathRun post).
Proof.
  intros (scheme & host & path & Hs & Hh & Hne & Hpath & ->).
  rewrite !sapp_assoc, matchHere_prefix, pathRun_sapp by done.
  destruct path as [|c path]; [done|]. by rewrite sapp_cons.
Qed.

Lemma isLink_nonempty m : isLink m -> m <> EmptyString.
Proof. intros (scheme & host & path & [-> | ->] & _ & _ & _ & ->); done. Qed.

Lemma FindString_step s :
  FindString s =
    match matchHere s with
    | Some m => m
    | None => match s with
              | EmptyString => EmptyString
              | String _ r => FindString r
              end
    end.
Proof. by destruct s. Qed.

Lemma FindString_found s :
  FindString s <> EmptyString ->
  isLink (FindString s) /\
  exists pre post,
    s = pre +:+ FindString s +:+ post /\
    pathRun post = EmptyString /\
    forall i, (i < String.length pre)%nat -> matchHere (dropBytes i s) = None.
Proof.
  induction s as [|c r IH]; rewrite FindString_step.
  - destruct (matchHere EmptyString) as [m|] eqn:Hm; [|done]. intros _.
    apply matchHere_Some in Hm as (Hl & post & Hs & Hp). split; [done|].
    exists EmptyString, post. split; [done|]. split; [done|]. cbn. lia.
  - destruct (matchHere (String c r)) as [m|] eqn:Hm.
    + intros _. apply matchHere_Some in Hm as (Hl & post & Hs & Hp). split; [done|].
      exists EmptyString, post. split; [done|]. split; [done|]. cbn. lia.
    + intros Hne. destruct (IH Hne) as (Hl & pre & post & Hs & Hp & Hleft).
      split; [done|]. exists (String c pre), post.
      split; [by rewrite sapp_cons, <- Hs|]. split; [done|].
      intros [|i] Hi; [done|]. cbn [dropBytes]. apply Hleft. cbn in Hi. lia.
Qed.

Lemma FindString_link s : FindString s <> EmptyString -> isLink (FindString s).
Proof. intros H. by apply FindString_found. Qed.

(** X8: what [FindString] returns, when it returns anything, is a link of
    the pattern (scheme http or https, host vm, vt or www under
    tiktok.com, a non-empty path of letters, digits and '/'), it stands in
    the text, it is not followed by a further path character, and no match
    starts before it. *)
Theorem FindString_finds_link s :
  FindString s <> EmptyString ->
  isLink (FindString s) /\
  exists pre post,
    s = pre +:+ FindString s +:+ post /\
    pathRun post = EmptyString /\
    forall i, (i < String.length pre)%nat -> matchHere (dropBytes i s) = None.
Proof. apply FindString_found. Qed.

Lemma FindString_finds_link_witness :
  isLink (FindString "look: https://vm.tiktok.com/ZMabc/?x=1").
Proof.
  destruct (FindString_finds_link "look: https://vm.tiktok.com/ZMabc/?x=1") as [H _].
  - vm_compute. discriminate.
  - exact H.
Defined.

Lemma isLink_FindString m : isLink m -> FindString m = m.
Proof.
  intros Hl. rewrite FindString_step.
  pose proof (isLink_matchHere m EmptyString Hl) as H.
  cbn [pathRun] in H. rewrite !sapp_nil_r in H. by rewrite H.
Qed.

(** X9: searching the link that [FindString] returned yields that link
    again: what is stored in the cache and later resolved is what a fresh
    search of it would give. *)
Theorem FindString_idempotent s : FindString (FindString s) = FindString s.
Proof.
  destruct (String.eqb_spec (FindString s) EmptyString) as [->|Hne]; [reflexivity|].
  apply isLink_FindString. by apply FindString_link.
Qed.

(** X10: a text that holds a link of the pattern is never passed over:
    [FindString] returns a link; and when the text begins with the link the
    result is that link, extended over the path characters that follow
    it. *)
Theorem FindString_complete m :
  isLink m ->
  (forall post, FindString (m +:+ post) = m +:+ pathRun post) /\
  (forall pre post, FindString (pre +:+ m +:+ post) <> EmptyString).
Proof.
  intros Hl. split.
  - intros post. rewrite FindString_step. by rewrite isLink_matchHere.
  - intros pre post. induction pre as [|c pre IH].
    + rewrite sapp_nil_l, FindString_step, isLink_matchHere by done.
      destruct Hl as (scheme & host & path & [-> | ->] & _ & _ & _ & ->); done.
    + rewrite sapp_cons, FindString_step.
      destruct (matchHere _) as [m'|] eqn:Hm; [|exact IH].
      apply matchHere_Some in Hm as [Hm _]. by apply isLink_nonempty.
Qed.

Lemma FindString_complete_witness :
  FindString ("https://vm.tiktok.com/ZMabc/" +:+ "x9?lang=en") = "https://vm.tiktok.com/ZMabc/x9" /\
  FindString ("see " +:+ "https://vm.tiktok.com/ZMabc/" +:+ " now") <> EmptyString.
Proof.
  destruct (FindString_complete "https://vm.tiktok.com/ZMabc/") as [H1 H2].
  - exists "https", "vm", "ZMabc/". repeat split; auto.
  - split; [exact (H1 "x9?lang=en") | exact (H2 "see " " now")].
Defined.

(** ** The handlers *)

Lemma guardedFrom_sends evs : Forall (fun e => isSend e = true) evs -> guardedFrom false evs = true.
Proof.
  induction 1 as [|e evs He _ IH]; [done|]. cbn [guardedFrom]. by destruct e.
Qed.

Lemma emitted_nil w : emitted w [] = w.
Proof. unfold emitted. rewrite app_nil_r. by destruct w. Qed.

Lemma sendPhotoGroups_groups chatID (imageURLs : list string) caption :
  exists groups : list (list InputMediaPhoto),
    (forall w, sendPhotoGroups chatID imageURLs caption w
               = Some (tt, emitted w (map (EvSendMediaGroup chatID) groups))) /\
    map Media (concat groups) = imageURLs /\
    (map length groups =
       replicate (length imageURLs / 10) 10 ++
       (if (length imageURLs mod 10 =? 0) then [] else [length imageURLs mod 10]))%nat.
Proof.
  destruct (sendPhotoGroupsFrom_batches chatID imageURLs caption (length imageURLs) 0%nat)
    as (groups & Hrun & Hmedia & Hsizes & _); [lia|].
  rewrite Nat.sub_0_r in Hsizes. eauto.
Qed.

(** X11: [sendPhotoGroups] makes [(N + 9) / 10] calls, none for an empty
    list; every media group holds at least one and at most ten items, and
    a group of a single item is sent exactly when N leaves the remainder 1
    on division by ten. *)
Theorem photo_group_bounds chatID (imageURLs : list string) caption :
  exists groups : list (list InputMediaPhoto),
    (forall w, sendPhotoGroups chatID imageURLs caption w
               = Some (tt, emitted w (map (EvSendMediaGroup chatID) groups))) /\
    length groups = ((length imageURLs + 9) / 10)%nat /\
    Forall (fun g => (1 <= length g <= 10)%nat) groups /\
    ((exists g, g ∈ groups /\ length g = 1%nat) <-> (length imageURLs mod 10 = 1)%nat).
Proof.
  destruct (sendPhotoGroups_groups chatID imageURLs caption) as (groups & Hrun & _ & Hsizes).
  exists groups. split; [exact Hrun|].
  set (n := length imageURLs) in *.
  pose proof (Nat.div_mod_eq n 10) as Hdm.
  pose proof (Nat.mod_upper_bound n 10 ltac:(lia)) as Hr.
  assert (Hin : forall k, k ∈ map length groups <->
                  ((k = 10 /\ 0 < n / 10) \/ (k = n mod 10 /\ n mod 10 <> 0))%nat).
  { intros k. rewrite Hsizes, elem_of_app, elem_of_replicate.
    destruct (Nat.eqb_spec (n mod 10) 0) as [H0|H0].
    - rewrite elem_of_nil. split; [intros [[? ?]|[]]; left; lia | intros [[? ?]|[? ?]]; [left|]; lia].
    - rewrite list_elem_of_singleton.
      split; [intros [[? ?]|?]; [left|right]; lia | intros [[? ?]|[? ?]]; [left|right]; lia]. }
  split; [|split].
  - rewrite <- (length_map length groups), Hsizes, length_app, length_replicate.
    destruct (Nat.eqb_spec (n mod 10) 0) as [H0|H0]; cbn [length].
    + apply (Nat.div_unique _ 10 _ 9); lia.
    + apply (Nat.div_unique _ 10 _ (n mod 10 - 1)); lia.
  - apply Forall_forall. intros g Hg.
    assert (Hl : length g ∈ map length groups) by (apply list_elem_of_fmap; eauto).
    apply Hin in Hl. lia.
  - split.
    + intros (g & Hg & H1).
      assert (Hl : length g ∈ map length groups) by (apply list_elem_of_fmap; eauto).
      apply Hin in Hl. lia.
    + intros H1. assert (Hl : 1%nat ∈ map length groups) by (apply Hin; lia).
      apply list_elem_of_fmap in Hl as (g & Hlen & Hg). eauto.
Qed.

Section HandlerRuns.

Variable fetchTikTok : string -> option response.

(** What [sendTikTok] sends: media groups when the resolver gives images,
    whatever else it gives; one message with the video URL when it gives
    no image but a video; nothing otherwise.  All of it goes to the chat
    asked for, and the cache is not touched. *)
Lemma sendTikTok_sends chatID link :
  exists evs,
    (forall w, sendTikTok fetchTikTok chatID link w = Some (tt, emitted w evs)) /\
    Forall (fun e => isSend e = true) evs /\
    Forall (fun e => repliesTo chatID e = true) evs /\
    match fetchTikTok link with
    | None => evs = []
    | Some rs =>
      match Images rs with
      | [] => evs = if String.eqb (Play rs) EmptyString then []
                    else [EvSendMessage chatID (srcCaption (Play rs)) ParseModeMarkdown]
      | _ :: _ => exists groups, evs = map (EvSendMediaGroup chatID) groups /\
                                 map Media (concat groups) = Images rs
      end
    end.
Proof.
  unfold sendTikTok. destruct (fetchTikTok link) as [rs|].
  2:{ exists []. split; [intros w; by rewrite emitted_nil|]. by repeat split. }
  destruct (Images rs) as [|u imgs] eqn:Himg; cbn [length Nat.ltb Nat.leb].
  - destruct (String.eqb (Play rs) EmptyString); cbn [negb].
    + exists []. split; [intros w; by rewrite emitted_nil|]. by repeat split.
    + eexists. split; [intros w; reflexivity|].
      split; [by repeat constructor|]. split; [|reflexivity].
      repeat constructor. cbn. apply Z.eqb_refl.
  - destruct (sendPhotoGroups_groups chatID (u :: imgs) (srcCaption link))
      as (groups & Hrun & Hmedia & _).
    exists (map (EvSendMediaGroup chatID) groups).
    split; [exact Hrun|]. split; [|split; [|eauto]].
    + apply Forall_forall. intros e (g & -> & _)%list_elem_of_fmap. done.
    + apply Forall_forall. intros e (g & -> & _)%list_elem_of_fmap. cbn. apply Z.eqb_refl.
Qed.


Lemma linksOnly_delete m k : linksOnly m -> linksOnly (delete k m).
Proof.
  intros H j item Hj. apply lookup_delete_Some in Hj as [_ Hj]. by apply (H j).
Qed.

Lemma linksOnly_insert m k u e : linksOnly m -> isLink u -> linksOnly (<[k := CacheItem u e]> m).
Proof.
  intros H Hu j item Hj. apply lookup_insert_Some in Hj as [[_ <-]|[_ Hj]]; [done|].
  by apply (H j).
Qed.

Lemma handleStartPayload_run chatID text now w :
  mu w = false ->
  exists b w' evs,
    handleStartPayload fetchTikTok chatID text now w = Some (b, w') /\
    mu w' = false /\
    (items w' = items w \/ exists k, items w' = delete k (items w)) /\
    trace w' = trace w ++ evs /\
    guardedFrom false evs = true /\
    Forall (fun e => repliesTo chatID e = true) evs /\
    (b = false -> w' = w).
Proof.
  intros Hmu.
  destruct (callback_decided text) as [(p & rest & Hf & Hp)|Hno].
  - rewrite (handleStartPayload_callback fetchTikTok chatID text now p rest Hf Hp).
    unfold mbind at 1, M_bind at 1. rewrite get_run by done.
    destruct (items w !! dropBytes 3 p) as [item|] eqn:Hit;
      [destruct (After now (expires item))|].
    + exists true. do 2 eexists. split; [reflexivity|]. cbn. split; [done|]. split; [eauto|].
      split; [by rewrite <- app_assoc|]. split; [done|]. split; [|done].
      repeat constructor. cbn. apply Z.eqb_refl.
    + cbn [snd fst negb].
      destruct (sendTikTok_sends chatID (url item)) as (evs & Hrun & Hsend & Hrep & _).
      unfold mbind, M_bind. rewrite Hrun. exists true. do 2 eexists.
      split; [reflexivity|]. cbn. split; [done|]. split; [auto|].
      split; [by rewrite <- app_assoc|]. split; [|split; [|done]].
      * change (guardedFrom false ([EvLock; EvMapRead (dropBytes 3 p); EvUnlock] ++ evs) = true).
        rewrite guardedFrom_app by done. by apply guardedFrom_sends.
      * by repeat constructor.
    + exists true. do 2 eexists. split; [reflexivity|]. cbn. split; [done|]. split; [auto|].
      split; [by rewrite <- app_assoc|]. split; [done|]. split; [|done].
      repeat constructor. cbn. apply Z.eqb_refl.
  - rewrite handleStartPayload_other by done. exists false, w, [].
    rewrite app_nil_r. by repeat split; auto.
Qed.

(** One message handled: the handler runs to its end, leaves the mutex
    free, adds no entry to the cache and changes none, keeps the lock
    discipline, and sends only to the chat the message came from. *)
Lemma handlerMessage_run chatID text now w :
  mu w = false ->
  exists w' evs,
    handlerMessage fetchTikTok chatID text now w = Some (tt, w') /\
    mu w' = false /\
    (items w' = items w \/ exists k, items w' = delete k (items w)) /\
    trace w' = trace w ++ evs /\
    guardedFrom false evs = true /\
    Forall (fun e => repliesTo chatID e = true) evs.
Proof.
  intros Hmu. unfold handlerMessage.
  destruct (String.eqb text EmptyString).
  { exists w, []. rewrite app_nil_r. by repeat split; auto. }
  destruct (handleStartPayload_run chatID text now w Hmu)
    as (b & w1 & evs & Hrun & Hmu1 & Hit & Htr & Hg & Hrep & Hfalse).
  unfold mbind, M_bind. rewrite Hrun. destruct b.
  - exists w1, evs. auto 10.
  - rewrite (Hfalse eq_refl). destruct (String.eqb (FindString text) EmptyString).
    + exists w, []. rewrite app_nil_r. by repeat split; auto.
    + destruct (sendTikTok_sends chatID (FindString text)) as (evs' & Hrun' & Hsend & Hrep' & _).
      rewrite Hrun'. exists (emitted w evs'), evs'. cbn.
      split; [done|]. split; [done|]. split; [auto|]. split; [done|].
      split; [by apply guardedFrom_sends | done].
Qed.

(** One inline query handled: the handler runs to its end and leaves the
    mutex free.  It stays silent and leaves the cache alone, or it stores
    the link found in the query under a fresh token and answers once with
    an article whose button carries that token, or it leaves the cache
    alone and answers once with the video. *)
Lemma handlerInline_run bot queryID query rnd nanos now w :
  mu w = false ->
  exists w' evs,
    handlerInline fetchTikTok bot queryID query rnd nanos now w = Some (tt, w') /\
    mu w' = false /\
    trace w' = trace w ++ evs /\
    guardedFrom false evs = true /\
    ((items w' = items w /\ evs = []) \/
     (FindString query <> EmptyString /\ bot <> EmptyString /\
      items w' = <[randomToken 12 rnd nanos :=
                     CacheItem (FindString query) (now + cacheTTL)]> (items w) /\
      exists article,
        evs = [EvLock; EvMapWrite (randomToken 12 rnd nanos); EvUnlock;
               EvAnswerInlineQuery queryID
                 (ResultArticle article (deepLink bot (randomToken 12 rnd nanos)))]) \/
     (items w' = items w /\
      exists rs,
        fetchTikTok (FindString query) = Some rs /\
        Images rs = [] /\ Play rs <> EmptyString /\
        evs = [EvAnswerInlineQuery queryID
                 (ResultVideo (Play rs) (Cover rs) (Title rs)
                    (srcCaption (FindString query)))])).
Proof.
  intros Hmu. unfold handlerInline.
  assert (Hsilent : exists w' evs, Some (tt, w) = Some (tt, w') /\ mu w' = false /\
            trace w' = trace w ++ evs /\ guardedFrom false evs = true /\
            ((items w' = items w /\ evs = []) \/
             (FindString query <> EmptyString /\ bot <> EmptyString /\
              items w' = <[randomToken 12 rnd nanos :=
                             CacheItem (FindString query) (now + cacheTTL)]> (items w) /\
              exists article,
                evs = [EvLock; EvMapWrite (randomToken 12 rnd nanos); EvUnlock;
                       EvAnswerInlineQuery queryID
                         (ResultArticle article (deepLink bot (randomToken 12 rnd nanos)))]) \/
             (items w' = items w /\
              exists rs,
                fetchTikTok (FindString query) = Some rs /\
                Images rs = [] /\ Play rs <> EmptyString /\
                evs = [EvAnswerInlineQuery queryID
                         (ResultVideo (Play rs) (Cover rs) (Title rs)
                            (srcCaption (FindString query)))]))).
  { exists w, []. rewrite app_nil_r. by repeat split; auto. }
  destruct (String.eqb_spec (FindString query) EmptyString) as [|Hlink]; [exact Hsilent|].
  destruct (fetchTikTok (FindString query)) as [rs|] eqn:Hfetch; [|exact Hsilent].
  destruct (String.eqb (Play rs) EmptyString && (length (Images rs) =? 0)%nat) eqn:Hempty;
    [exact Hsilent|].
  destruct (0 <? length (Images rs))%nat eqn:Himages.
  - destruct (String.eqb_spec bot EmptyString) as [|Hbot]; [exact Hsilent|].
    unfold mbind, M_bind. rewrite set_run by done. unfold emit. cbn [mu items trace].
    do 2 eexists. split; [reflexivity|]. cbn [mu items trace]. split; [done|].
    split; [by rewrite <- app_assoc|]. split; [done|]. right. left. eauto 10.
  - assert (Hnone : Images rs = []).
    { apply Nat.ltb_ge in Himages. destruct (Images rs); [done | cbn in Himages; lia]. }
    assert (Hplay : Play rs <> EmptyString).
    { intros Hp. rewrite Hp, Hnone in Hempty. discriminate. }
    unfold emit. do 2 eexists. split; [reflexivity|]. cbn. split; [done|].
    split; [done|]. split; [done|]. right. right. split; [done|].
    exists rs. by repeat split.
Qed.

End HandlerRuns.

(** ** Updates handled one after the other *)

Lemma mainRouter_run fetchTikTok bot u rnd nanos now w :
  mu w = false -> linksOnly (items w) ->
  exists w' evs,
    mainRouter fetchTikTok bot u rnd nanos now w = Some (tt, w') /\
    mu w' = false /\ linksOnly (items w') /\
    trace w' = trace w ++ evs /\ guardedFrom false evs = true.
Proof.
  intros Hmu Hlinks. unfold mainRouter. destruct (InlineQuery u) as [q|].
  - destruct (handlerInline_run fetchTikTok bot (ID q) (Query q) rnd nanos now w Hmu)
      as (w' & evs & Hrun & Hmu' & Htr & Hg & Hcases).
    exists w', evs. repeat split; try done.
    destruct Hcases as [[-> _] | [(Hlink & _ & -> & _) | [-> _]]]; try done.
    apply linksOnly_insert; [done|]. by apply FindString_link.
  - destruct (Message u) as [m|].
    + destruct (handlerMessage_run fetchTikTok (ChatID m) (Text m) now w Hmu)
        as (w' & evs & Hrun & Hmu' & Hit & Htr & Hg & _).
      exists w', evs. repeat split; try done.
      destruct Hit as [-> | [k ->]]; [done | by apply linksOnly_delete].
    + exists w, []. rewrite app_nil_r. by repeat split.
Qed.

Lemma runUpdates_run bot arrivals : forall w,
  mu w = false -> linksOnly (items w) ->
  exists w' evs,
    runUpdates bot arrivals w = Some (tt, w') /\
    mu w' = false /\ linksOnly (items w') /\
    trace w' = trace w ++ evs /\ guardedFrom false evs = true.
Proof.
  induction arrivals as [|a arrivals IH]; intros w Hmu Hlinks.
  - exists w, []. rewrite app_nil_r. by repeat split.
  - destruct (mainRouter_run (arrResolver a) bot (arrUpdate a) (arrRand a) (arrNanos a)
                (arrNow a) w Hmu Hlinks) as (w1 & evs1 & Hrun1 & Hmu1 & Hl1 & Htr1 & Hg1).
    destruct (IH w1 Hmu1 Hl1) as (w2 & evs2 & Hrun2 & Hmu2 & Hl2 & Htr2 & Hg2).
    exists w2, (evs1 ++ evs2). cbn [runUpdates]. unfold mbind, M_bind at 1. rewrite Hrun1.
    split; [exact Hrun2|]. split; [done|]. split; [done|]. split.
    + by rewrite Htr2, Htr1, app_assoc.
    + by rewrite guardedFrom_app.
Qed.

Lemma linksOnly_empty : linksOnly ∅.
Proof. intros k item Hk. by rewrite lookup_empty in Hk. Qed.

(** X12: started with an empty cache, the bot handles any sequence of
    updates to the end, whatever the resolver, the random source and the
    clock answer: no handler blocks on the mutex or leaves it held, every
    access to the map lies between a lock and the next unlock, and no call
    of the bot API is made while the mutex is held. *)
Theorem bot_never_blocks bot arrivals :
  exists w',
    runUpdates bot arrivals newLinkCache = Some (tt, w') /\
    mu w' = false /\ guardedFrom false (trace w') = true.
Proof.
  destruct (runUpdates_run bot arrivals newLinkCache eq_refl linksOnly_empty)
    as (w' & evs & Hrun & Hmu & _ & Htr & Hg).
  exists w'. cbn in Htr. by rewrite Htr.
Qed.

(** X13: the cache only ever holds links of the pattern: after any
    sequence of updates every stored resource is a link that
    [tiktokRegex] accepts, so what [handleStartPayload] hands to the
    resolver was never chosen freely by a user. *)
Theorem cache_holds_only_links bot arrivals w' :
  runUpdates bot arrivals newLinkCache = Some (tt, w') ->
  forall token item, items w' !! token = Some item ->
    isLink (url item) /\ FindString (url item) = url item.
Proof.
  intros Hrun token item Hit.
  destruct (runUpdates_run bot arrivals newLinkCache eq_refl linksOnly_empty)
    as (w1 & evs & Hrun1 & _ & Hl & _). rewrite Hrun in Hrun1. injection Hrun1 as <-.
  split; [by apply (Hl token) | by apply isLink_FindString, (Hl token)].
Qed.

Lemma cache_holds_only_links_witness :
  exists w',
    runUpdates "relaybot"
      [Arrival (Update (Some (InlineQueryOf "q1" "https://vm.tiktok.com/ZM1/ please")) None)
               exFetch RandFails 77 1000;
       Arrival (Update None (Some (MessageOf 5 "/start tt_78"))) exFetch RandFails 78 2000]
      newLinkCache = Some (tt, w') /\
    forall token item, items w' !! token = Some item -> isLink (url item).
Proof.
  destruct (runUpdates "relaybot"
      [Arrival (Update (Some (InlineQueryOf "q1" "https://vm.tiktok.com/ZM1/ please")) None)
               exFetch RandFails 77 1000;
       Arrival (Update None (Some (MessageOf 5 "/start tt_78"))) exFetch RandFails 78 2000]
      newLinkCache) as [[[] w']|] eqn:Hrun; [|vm_compute in Hrun; discriminate].
  exists w'. split; [reflexivity|]. intros token item Hit.
  apply (cache_holds_only_links "relaybot" _ w' Hrun token item Hit).
Defined.

(** X14: a message is answered only in the chat it came from, and it never
    adds to the cache: whatever the text, the handler runs to its end, every
    message or media group it sends goes to that chat, it answers no inline
    query, and the map afterwards is the map before, less at most one
    entry. *)
Theorem message_replies_stay_in_chat fetchTikTok chatID text now w :
  mu w = false ->
  exists w' evs,
    handlerMessage fetchTikTok chatID text now w = Some (tt, w') /\
    trace w' = trace w ++ evs /\
    Forall (fun e => repliesTo chatID e = true) evs /\
    (items w' = items w \/ exists k, items w' = delete k (items w)).
Proof.
  intros Hmu.
  destruct (handlerMessage_run fetchTikTok chatID text now w Hmu)
    as (w' & evs & Hrun & _ & Hit & Htr & _ & Hrep).
  exists w', evs. auto.
Qed.

Lemma message_replies_stay_in_chat_witness :
  exists w' evs,
    handlerMessage exFetch 5 "here: https://vm.tiktok.com/ZM1/" 0 newLinkCache = Some (tt, w') /\
    trace w' = evs /\ Forall (fun e => repliesTo 5 e = true) evs.
Proof.
  destruct (message_replies_stay_in_chat exFetch 5 "here: https://vm.tiktok.com/ZM1/" 0
              newLinkCache eq_refl) as (w' & evs & H1 & H2 & H3 & _).
  exists w', evs. auto.
Defined.



Lemma deferred_handoff_round_trip_witness :
  exists w1 w2,
    handlerInline exFetch "relaybot" "q1" "see https://vm.tiktok.com/ZM1/" RandFails 77 1000
      newLinkCache = Some (tt, w1) /\
    handleStartPayload exFetch 5 ("/start " +:+ startTokenPref +:+ "77") 2000 w1 =
      (sendTikTok exFetch 5 "https://vm.tiktok.com/ZM1/";; mret true) w2.
Proof.
  destruct (deferred_handoff_round_trip exFetch "relaybot" "q1" "see https://vm.tiktok.com/ZM1/"
              RandFails 77 1000 5 2000 newLinkCache
              (Response "t" "c" EmptyString "m" ["a"; "b"; "c"] 12))
    as (w1 & w2 & H1 & _ & _ & H2).
  - reflexivity.
  - vm_compute. discriminate.
  - vm_compute. reflexivity.
  - cbn. lia.
  - discriminate.
  - unfold cacheTTL, Minute. lia.
  - exists w1, w2. split; [exact H1 | exact H2].
Defined.

(** ** More on the compositor *)

Section CompositionMore.

Variable httpGet : string -> httpResult.

(** X16: the order in which the download goroutines finish has no
    influence at all: for any two completion orders of the goroutines that
    were started, [makeVideo] returns the same result and produces the
    same trace. *)
Theorem makeVideo_order_independent enc order1 order2 sched imageURLs audioURL duration :
  order1 ≡ₚ spawned imageURLs audioURL ->
  order2 ≡ₚ spawned imageURLs audioURL ->
  makeVideo httpGet enc order1 sched imageURLs audioURL duration =
  makeVideo httpGet enc order2 sched imageURLs audioURL duration.
Proof.
  intros H1 H2. unfold makeVideo.
  by rewrite (fetchAll_barrier httpGet order1 imageURLs audioURL H1),
             (fetchAll_barrier httpGet order2 imageURLs audioURL H2).
Qed.

(** X17: [makeVideo] returns bytes or an error, never both and never
    neither; it returns bytes exactly when the audio buffer is not nil, the
    encoder starts and its exit is clean, and the bytes are then the
    standard output of the encoder, whole. *)
Theorem makeVideo_result_exclusive enc order sched imageURLs audioURL duration :
  let res := fst (makeVideo httpGet enc order sched imageURLs audioURL duration) in
  (fst res = None <-> snd res <> None) /\
  (forall out, fst res = Some out <->
     (out = stdout enc /\ waitErr enc = None /\ startErr enc = None /\
      audBuf (fetchAll httpGet order (length imageURLs)) <> None)).
Proof.
  cbn zeta. unfold makeVideo.
  destruct (audBuf (fetchAll httpGet order (length imageURLs))) as [aud|].
  - destruct (startErr enc) as [e|].
    + cbn. split; [by split|]. intros out. split; [done | by intros (_ & _ & ? & _)].
    + destruct (waitErr enc) as [e|]; cbn.
      * split; [by split|]. intros out. split; [done | by intros (_ & ? & _)].
      * split; [split; [done | by intros []]|]. intros out. split.
        -- by intros [= <-].
        -- by intros [-> _].
  - cbn. split; [by split|]. intros out. split; [done | by intros (_ & _ & _ & [])].
Qed.

Lemma imgWrites_all_failed enc (urls : list string) :
  Forall (fun u => httpGet u = GetFails) urls ->
  forall i, imgWrites enc i (map (fun u => fst (downloadToMem httpGet u)) urls) = [].
Proof.
  induction 1 as [|u us Hu _ IH]; intros i; [done|].
  cbn [map imgWrites]. unfold downloadToMem at 1. rewrite Hu. cbn. apply IH.
Qed.

(** X18: missing images do not stop the composition: when every image
    download fails (also when there is no image at all) while the audio
    arrives and the encoder starts, the encoder runs, the image pipe sees
    no write and exactly one close, and the audio pipe is fed as usual. *)
Theorem no_image_still_encodes enc order sched imageURLs audioURL duration aud :
  order ≡ₚ spawned imageURLs audioURL ->
  Forall (fun u => httpGet u = GetFails) imageURLs ->
  fst (downloadToMem httpGet audioURL) = Some aud ->
  startErr enc = None ->
  let tr := snd (makeVideo httpGet enc order sched imageURLs audioURL duration) in
  (exists fr, tr !! 0%nat = Some (EvStart fr)) /\
  omap (onPipe ImgWriter) tr = [EvClose ImgWriter] /\
  omap (writtenTo AudWriter) tr = [aud].
Proof.
  intros Hperm Hfail Haud Hstart tr. subst tr.
  pose proof (fetchAll_barrier httpGet order imageURLs audioURL Hperm) as Hst.
  rewrite (makeVideo_started httpGet enc order sched imageURLs audioURL duration aud);
    [|rewrite Hst; exact Haud|done].
  split; [eauto|]. rewrite !omap_cons_match. cbn [onPipe writtenTo].
  rewrite writers_project_img, Hst. cbn [imgBufs].
  pose proof (imgWrites_all_failed enc imageURLs Hfail) as Hnone.
  split.
  - unfold imgWriterRoutine. by rewrite Hnone.
  - rewrite (runThreads_project _ sched _ 2%nat); [done|].
    intros [|[|[|t']]] evs Hne Ht'; try done; injection Ht' as <-; [done|].
    unfold imgWriterRoutine. by rewrite Hnone.
Qed.

End CompositionMore.

Lemma makeVideo_order_independent_witness :
  makeVideo exNet exEncoder [ImageTask 0 "a"; AudioTask "m"] [1; 0]%nat ["a"] "m" 3 =
  makeVideo exNet exEncoder [AudioTask "m"; ImageTask 0 "a"] [1; 0]%nat ["a"] "m" 3.
Proof.
  apply makeVideo_order_independent.
  - apply perm_swap.
  - reflexivity.
Defined.

Lemma no_image_still_encodes_witness :
  omap (onPipe ImgWriter)
    (snd (makeVideo exNet exEncoder [AudioTask "m"; ImageTask 0 "x"; ImageTask 1 "y"]
            [2; 1]%nat ["x"; "y"] "m" 3)) = [EvClose ImgWriter].
Proof.
  destruct (no_image_still_encodes exNet exEncoder [AudioTask "m"; ImageTask 0 "x"; ImageTask 1 "y"]
              [2; 1]%nat ["x"; "y"] "m" 3 [Byte.x09]) as (_ & H & _).
  - reflexivity.
  - repeat constructor.
  - reflexivity.
  - reflexivity.
  - exact H.
Defined.


(** ** Start-up *)

Lemma trimLeftFrom_head s : forall skip, spaceWidth (trimLeftFrom s skip) = 0%nat.
Proof.
  induction s as [|c r IH]; intros skip; [done|]. cbn [trimLeftFrom].
  destruct skip as [|k]; [|apply IH].
  destruct (spaceWidth (String c r)) eqn:Hw; [done | apply IH].
Qed.

Lemma substring_0_split m : forall s,
  s = String.substring 0 m s +:+ dropBytes m s /\
  String.length (String.substring 0 m s) = Nat.min m (String.length s).
Proof.
  induction m as [|m IH]; intros [|c s]; cbn [String.substring dropBytes String.length Nat.min];
    try done.
  destruct (IH s) as [H1 H2]. rewrite sapp_cons, <- H1. cbn [String.length]. by rewrite H2.
Qed.

Lemma trailingSpaceWidth_le s : (trailingSpaceWidth s <= String.length s)%nat.
Proof.
  unfold trailingSpaceWidth.
  repeat match goal with
         | |- context [(?k <=? ?n)%nat] => destruct (Nat.leb_spec k n); cbn [andb]
         | |- context [if (?a =? ?b)%nat then _ else _] => destruct (a =? b)%nat
         end; lia.
Qed.

Lemma trimRightFuel_prefix fuel : forall s, exists rest, s = trimRightFuel fuel s +:+ rest.
Proof.
  induction fuel as [|fuel IH]; intros s; cbn [trimRightFuel].
  - exists EmptyString. by rewrite sapp_nil_r.
  - destruct (trailingSpaceWidth s) as [|w]; [exists EmptyString; by rewrite sapp_nil_r|].
    destruct (IH (takeBytes (String.length s - S w) s)) as [rest Hrest].
    exists (rest +:+ dropBytes (String.length s - S w) s).
    rewrite <- sapp_assoc, <- Hrest. apply substring_0_split.
Qed.

Lemma trimRightFuel_tail fuel : forall s,
  (String.length s <= fuel)%nat -> trailingSpaceWidth (trimRightFuel fuel s) = 0%nat.
Proof.
  induction fuel as [|fuel IH]; intros s Hlen; cbn [trimRightFuel].
  - destruct s; [done | cbn [String.length] in Hlen; lia].
  - destruct (trailingSpaceWidth s) as [|w] eqn:Hw; [done|].
    apply IH. unfold takeBytes.
    destruct (substring_0_split (String.length s - S w) s) as [_ ->].
    pose proof (trailingSpaceWidth_le s). lia.
Qed.

(** What [TrimSpace] returns neither begins nor ends with white space. *)
Lemma TrimSpace_clean s :
  spaceWidth (TrimSpace s) = 0%nat /\ trailingSpaceWidth (TrimSpace s) = 0%nat.
Proof.
  unfold TrimSpace, TrimRightSpace, TrimLeftSpace. split.
  - destruct (trimRightFuel_prefix (String.length (trimLeftFrom s 0)) (trimLeftFrom s 0))
      as [rest Hrest].
    pose proof (trimLeftFrom_head s 0) as Hh. rewrite Hrest in Hh.
    by apply spaceWidth_prefix_0 in Hh.
  - by apply trimRightFuel_tail.
Qed.

Lemma trimLeftByte_head c s : HasPrefix (trimLeftByte c s) (String c EmptyString) = false.
Proof.
  induction s as [|d r IH]; [done|]. cbn [trimLeftByte].
  destruct (Ascii.eqb d c) eqn:Hd; [done|]. cbn [HasPrefix]. by rewrite Hd.
Qed.

Lemma trimRightByte_prefix c s : exists rest, s = trimRightByte c s +:+ rest.
Proof.
  induction s as [|d r [rest Hrest]]; [by exists EmptyString|]. cbn [trimRightByte].
  destruct (trimRightByte c r) as [|e t] eqn:Ht.
  - destruct (Ascii.eqb d c); [by exists (String d r) | by exists r].
  - exists rest. by rewrite sapp_cons, <- Hrest.
Qed.

Lemma trimRightByte_last c s : lastByte (trimRightByte c s) <> Some c.
Proof.
  induction s as [|d r IH]; [done|]. cbn [trimRightByte].
  destruct (trimRightByte c r) as [|e t] eqn:Ht.
  - destruct (Ascii.eqb_spec d c); [done|]. cbn. congruence.
  - exact IH.
Qed.

(** What [Trim] returns neither begins nor ends with the byte. *)
Lemma Trim_clean s c :
  HasPrefix (Trim s c) (String c EmptyString) = false /\ lastByte (Trim s c) <> Some c.
Proof.
  unfold Trim. split; [|apply trimRightByte_last].
  destruct (trimRightByte_prefix c (trimLeftByte c s)) as [rest Hrest].
  pose proof (trimLeftByte_head c s) as Hh. rewrite Hrest in Hh.
  destruct (trimRightByte c (trimLeftByte c s)) as [|e t]; [done|].
  rewrite sapp_cons in Hh. exact Hh.
Qed.

Lemma Setenv_cases key value (env : environ) :
  Setenv key value env = env \/
  (Setenv key value env = <[key := value]> env /\
   key <> EmptyString /\ hasByte "=" key = false /\ hasByte Ascii.zero key = false /\
   hasByte Ascii.zero value = false).
Proof.
  unfold Setenv. destruct (String.eqb_spec key EmptyString) as [|Hk]; [by left|].
  destruct (hasByte "=" key); [by left|]. destruct (hasByte Ascii.zero key); [by left|].
  destruct (hasByte Ascii.zero value); [by left|]. right. auto.
Qed.

(** One line of the file either never changes the environment, or names
    one clean variable, which it adds wherever that variable is not set. *)
Lemma envLine_cases text :
  (forall env : environ, envLine env text = env) \/
  exists key value,
    cleanEntry key value /\
    forall env : environ,
      envLine env text = match env !! key with Some _ => env | None => <[key := value]> env end.
Proof.
  unfold envLine.
  destruct (String.eqb (TrimSpace text) EmptyString || HasPrefix (TrimSpace text) "#");
    [by left|].
  destruct (negb (length (SplitN2 (TrimSpace text) "=") =? 2)%nat); [by left|].
  set (key := TrimSpace (SplitN2 (TrimSpace text) "=" !!! 0%nat)).
  set (value := Trim (TrimSpace (SplitN2 (TrimSpace text) "=" !!! 1%nat)) quote).
  destruct (String.eqb_spec key EmptyString) as [|Hkey]; [by left|].
  destruct (hasByte "=" key) eqn:He;
    [left; intros env; unfold LookupEnv, Setenv; rewrite He;
     by destruct (env !! key), (key =? EmptyString)%string|].
  destruct (hasByte Ascii.zero key) eqn:Hz;
    [left; intros env; unfold LookupEnv, Setenv; rewrite He, Hz;
     by destruct (env !! key), (key =? EmptyString)%string|].
  destruct (hasByte Ascii.zero value) eqn:Hzv;
    [left; intros env; unfold LookupEnv, Setenv; rewrite He, Hz, Hzv;
     by destruct (env !! key), (key =? EmptyString)%string|].
  right. exists key, value. split.
  - destruct (TrimSpace_clean (SplitN2 (TrimSpace text) "=" !!! 0%nat)) as [Hs Ht].
    destruct (Trim_clean (TrimSpace (SplitN2 (TrimSpace text) "=" !!! 1%nat)) quote) as [Hq Hl].
    repeat split; done.
  - intros env. unfold LookupEnv, Setenv. rewrite He, Hz, Hzv.
    destruct (env !! key); cbn [snd]; [done|].
    by destruct (String.eqb_spec key EmptyString).
Qed.

Lemma envLine_union (env : environ) text : envLine env text = env ∪ envLine ∅ text.
Proof.
  destruct (envLine_cases text) as [Hsame | (key & value & _ & Hadd)].
  - by rewrite !Hsame, (right_id ∅ (∪)).
  - rewrite !Hadd, lookup_empty, insert_empty.
    destruct (env !! key) eqn:Hk; [|by apply insert_union_singleton_r].
    apply map_eq. intros k. rewrite lookup_union.
    destruct (decide (k = key)) as [->|Hne].
    + by rewrite Hk, lookup_singleton_eq.
    + rewrite lookup_singleton_ne by done. by destruct (env !! k).
Qed.

Lemma loadLines_union lines : forall env : environ,
  foldl envLine env lines = env ∪ foldl envLine ∅ lines.
Proof.
  induction lines as [|t ts IH]; intros env; cbn [foldl].
  - by rewrite (right_id ∅ (∪)).
  - rewrite (IH (envLine env t)), (IH (envLine ∅ t)), (envLine_union env t).
    by rewrite (assoc_L (∪)).
Qed.

Lemma loadEnvFile_union file (env : environ) :
  loadEnvFile file env = env ∪ loadEnvFile file ∅.
Proof.
  unfold loadEnvFile. destruct file as [lines|]; [apply loadLines_union|].
  by rewrite (right_id ∅ (∪)).
Qed.

Lemma loadLines_clean lines : forall (env : environ) k v,
  foldl envLine env lines !! k = Some v -> env !! k = Some v \/ cleanEntry k v.
Proof.
  induction lines as [|t ts IH]; intros env k v Hk; cbn [foldl] in Hk; [by left|].
  apply IH in Hk as [Hk | Hk]; [|by right].
  destruct (envLine_cases t) as [Hsame | (key & value & Hclean & Hadd)].
  - rewrite Hsame in Hk. by left.
  - rewrite Hadd in Hk. destruct (env !! key) eqn:Hl; [by left|].
    destruct (decide (k = key)) as [->|Hne].
    + rewrite lookup_insert_eq in Hk. injection Hk as <-. by right.
    + rewrite lookup_insert_ne in Hk by done. by left.
Qed.

(** X19: a variable that is set when [loadEnvFile] runs keeps its value,
    also when it is set to the empty string, and the whole result is the
    old environment completed by what the file alone would set; so
    loading the same file a second time changes nothing. *)
Theorem loadEnvFile_never_overrides file (env : environ) :
  loadEnvFile file env = env ∪ loadEnvFile file ∅ /\
  env ⊆ loadEnvFile file env /\
  loadEnvFile file (loadEnvFile file env) = loadEnvFile file env.
Proof.
  split; [apply loadEnvFile_union|]. split.
  - rewrite loadEnvFile_union. apply map_union_subseteq_l.
  - rewrite (loadEnvFile_union file (loadEnvFile file env)), (loadEnvFile_union file env).
    by rewrite <- (assoc_L (∪)), (idemp_L (∪)).
Qed.

(** X20: every variable that [loadEnvFile] adds has a clean name and a
    clean value: whatever the file holds, a variable of the result that
    was not set before is a [cleanEntry]. *)
Theorem loadEnvFile_adds_clean_entries file (env : environ) k v :
  env !! k = None -> loadEnvFile file env !! k = Some v -> cleanEntry k v.
Proof.
  intros Hnone Hk. unfold loadEnvFile in Hk. destruct file as [lines|]; [|congruence].
  apply loadLines_clean in Hk as [Hk | Hk]; [congruence | done].
Qed.

(** X21: within the file the first assignment of a name wins: an
    assignment line for a name that is not set and that no earlier line
    assigns gives the name its value, whatever follows it. *)
Theorem loadEnvFile_first_assignment_wins before text after (env : environ) k v :
  env !! k = None ->
  Forall (fun t => envLine ∅ t !! k = None) before ->
  envLine ∅ text !! k = Some v ->
  loadEnvFile (Some (before ++ text :: after)) env !! k = Some v.
Proof.
  intros Hnone Hbefore Htext. unfold loadEnvFile.
  rewrite foldl_app. cbn [foldl].
  assert (Hb : foldl envLine env before !! k = None).
  { clear Htext. revert env Hnone. induction Hbefore as [|t ts Ht _ IH]; intros env Hnone;
      cbn [foldl]; [done|].
    apply IH. rewrite envLine_union, lookup_union, Hnone, Ht. done. }
  rewrite loadLines_union. apply lookup_union_Some_raw. left.
  rewrite envLine_union, lookup_union, Hb, Htext. done.
Qed.

(** X22: with a [TOKEN] that is set and not empty, [main] never reads the
    file: the handlers see the environment as it was, so a [BOT_USERNAME]
    that only the file gives stays unset, and [main] does not stop for an
    empty token. *)
Theorem set_token_skips_env_file botNew file (env : environ) :
  Getenv env "TOKEN" <> EmptyString ->
  snd (mainStartup botNew file env) = env /\
  fst (mainStartup botNew file env) <> PanicEmptyToken.
Proof.
  intros Hset. unfold mainStartup.
  destruct (String.eqb_spec (Getenv env "TOKEN") EmptyString) as [|_]; [done|].
  destruct (String.eqb_spec (Getenv env "TOKEN") EmptyString) as [|_]; [done|].
  destruct (botNew (Getenv env "TOKEN")); cbn [fst snd]; split; (done || discriminate).
Qed.

(** X23: a [TOKEN] that is set to the empty string cannot be supplied by
    the file: [main] reads the file, which leaves the variable as it is,
    and stops with the empty-token panic, whatever the file holds. *)
Theorem empty_token_variable_panics botNew file (env : environ) :
  env !! "TOKEN" = Some EmptyString ->
  fst (mainStartup botNew file env) = PanicEmptyToken.
Proof.
  intros Hset.
  assert (Hold : Getenv env "TOKEN" = EmptyString) by (unfold Getenv; by rewrite Hset).
  assert (Hkeep : Getenv (loadEnvFile file env) "TOKEN" = EmptyString).
  { unfold Getenv. rewrite loadEnvFile_union.
    by rewrite (proj2 (lookup_union_Some_raw env _ "TOKEN" EmptyString) (or_introl Hset)). }
  unfold mainStartup. rewrite Hold. cbn [String.eqb]. by rewrite Hkeep.
Qed.

(** X24: when [main] gets as far as running the bot, the token is not
    empty, [bot.New] accepted it, it is the [TOKEN] of the environment the
    handlers see, and it is either the value the variable had or, for a
    variable that was not set, a clean value taken from the file. *)
Theorem running_token_source botNew file (env : environ) t :
  fst (mainStartup botNew file env) = Running t ->
  t <> EmptyString /\ botNew t = None /\
  Getenv (snd (mainStartup botNew file env)) "TOKEN" = t /\
  (env !! "TOKEN" = Some t \/ (env !! "TOKEN" = None /\ cleanEntry "TOKEN" t)).
Proof.
  unfold mainStartup.
  destruct (String.eqb_spec (Getenv env "TOKEN") EmptyString) as [Hempty | Hset].
  - destruct (String.eqb_spec (Getenv (loadEnvFile file env) "TOKEN") EmptyString)
      as [|Hfile]; [done|].
    destruct (botNew (Getenv (loadEnvFile file env) "TOKEN")) eqn:Hnew; [done|].
    cbn [fst snd]. intros [= <-]. split; [done|]. split; [done|]. split; [done|].
    unfold Getenv in Hempty, Hfile |- *.
    destruct (env !! "TOKEN") as [v|] eqn:Henv.
    + change (v = EmptyString) in Hempty. subst v. exfalso. apply Hfile.
      rewrite loadEnvFile_union.
      by rewrite (proj2 (lookup_union_Some_raw env _ "TOKEN" EmptyString) (or_introl Henv)).
    + right. split; [done|].
      destruct (loadEnvFile file env !! "TOKEN") as [v|] eqn:Hload; [|done].
      change (cleanEntry "TOKEN" v). unfold loadEnvFile in Hload. destruct file as [lines|]; [|congruence].
      apply loadLines_clean in Hload as [Hload | Hload]; [congruence | done].
  - destruct (String.eqb_spec (Getenv env "TOKEN") EmptyString) as [|_]; [done|].
    destruct (botNew (Getenv env "TOKEN")) eqn:Hnew; [done|].
    cbn [fst snd]. intros [= <-]. split; [done|]. split; [done|]. split; [done|].
    left. unfold Getenv in Hset |- *. by destruct (env !! "TOKEN").
Qed.

Lemma loadEnvFile_adds_clean_entries_witness :
  cleanEntry "TOKEN" "12:ab".
Proof.
  apply (loadEnvFile_adds_clean_entries
           (Some ["# bot"; String quote "X" +:+ "=1"; " TOKEN = " +:+ String quote "12:ab" +:+ String quote " "])
           ∅ "TOKEN" "12:ab").
  - reflexivity.
  - vm_compute. reflexivity.
Defined.

Lemma loadEnvFile_first_assignment_wins_witness :
  loadEnvFile (Some (["# bot"; "BOT_USERNAME=relaybot"] ++ "TOKEN=first" :: ["TOKEN=second"]))
    {[ "HOME" := "/root" ]} !! "TOKEN" = Some "first".
Proof.
  apply (loadEnvFile_first_assignment_wins ["# bot"; "BOT_USERNAME=relaybot"] "TOKEN=first"
           ["TOKEN=second"] {[ "HOME" := "/root" ]} "TOKEN" "first").
  - vm_compute. reflexivity.
  - repeat constructor; vm_compute; reflexivity.
  - vm_compute. reflexivity.
Defined.

Lemma set_token_skips_env_file_witness :
  snd (mainStartup (fun _ => None) (Some ["BOT_USERNAME=relaybot"]) {[ "TOKEN" := "12:ab" ]})
  = {[ "TOKEN" := "12:ab" ]} /\
  fst (mainStartup (fun _ => None) (Some ["BOT_USERNAME=relaybot"]) {[ "TOKEN" := "12:ab" ]})
  <> PanicEmptyToken.
Proof.
  apply (set_token_skips_env_file (fun _ => None) (Some ["BOT_USERNAME=relaybot"])
           {[ "TOKEN" := "12:ab" ]}).
  vm_compute. discriminate.
Defined.

Lemma empty_token_variable_panics_witness :
  fst (mainStartup (fun _ => None) (Some ["TOKEN=12:ab"]) {[ "TOKEN" := EmptyString ]})
  = PanicEmptyToken.
Proof.
  apply (empty_token_variable_panics (fun _ => None) (Some ["TOKEN=12:ab"])
           {[ "TOKEN" := EmptyString ]}).
  vm_compute. reflexivity.
Defined.

Lemma running_token_source_witness :
  "12:ab" <> EmptyString /\ (fun _ : string => @None string) "12:ab" = None /\
  Getenv (snd (mainStartup (fun _ => None) (Some ["TOKEN=12:ab"]) ∅)) "TOKEN" = "12:ab" /\
  ((∅ : environ) !! "TOKEN" = Some "12:ab" \/
   ((∅ : environ) !! "TOKEN" = None /\ cleanEntry "TOKEN" "12:ab")).
Proof.
  apply (running_token_source (fun _ => None) (Some ["TOKEN=12:ab"]) ∅ "12:ab").
  vm_compute. reflexivity.
Defined.
